(** * Wheeled mobile manipulator: kinematics and base controller

    A shallow embedding of [src/app/components/wmm.tsx]:
    the inverse-kinematics helper [calculateInverseKinematics], the click
    handler of the [useBasePosition] hook, the one-time centring done by the
    drawing effect of [WMMCanvas], and the canvas painters [drawBase],
    [drawArm] and [drawGripper].

    Numbers.  A JavaScript [number] is modelled as an extended real: a finite
    value, one of the two infinities, or NaN.  Arithmetic on finite values is
    exact: binary64 rounding and overflow are not modelled, and the two signed
    zeros are identified.  Everything else follows ECMAScript: NaN is
    contagious, [0/0], [Infinity - Infinity] and [0 * Infinity] are NaN,
    [Math.sqrt] of a negative number and [Math.acos] outside [-1, 1] are NaN,
    and [===] never holds of NaN.

    The properties of the solver that rounding would decide are stated on
    the values the code computes (the intermediate results of [Solver]),
    and the solver's lines are also transcribed over binary64 floats
    ([Binary64]) to evaluate what rounding does. *)

From Stdlib Require Import Reals Lra List String Bool.
From Stdlib Require PrimFloat.
Import ListNotations.

Local Open Scope R_scope.

(** ** Real-valued helpers *)

(** The two-argument arctangent on finite arguments, as ECMAScript tabulates
    [Math.atan2(y, x)] (with both zeros read as [+0]). *)
Definition Ratan2 (y x : R) : R :=
  if Rlt_dec 0 x then atan (y / x)
  else if Rlt_dec x 0 then
    if Rle_dec 0 y then atan (y / x) + PI else atan (y / x) - PI
  else if Rlt_dec 0 y then PI / 2
  else if Rlt_dec y 0 then - (PI / 2)
  else 0.

(** ** JavaScript numbers *)

Inductive number : Type :=
| Num (r : R)
| PInf
| NInf
| NaN.

Declare Scope js_scope.
Delimit Scope js_scope with js.
Bind Scope js_scope with number.

Coercion Num : R >-> number.

Definition neg (a : number) : number :=
  match a with
  | Num x => Num (- x)
  | PInf => NInf
  | NInf => PInf
  | NaN => NaN
  end.

Definition add (a b : number) : number :=
  match a, b with
  | NaN, _ | _, NaN => NaN
  | Num x, Num y => Num (x + y)
  | PInf, NInf | NInf, PInf => NaN
  | PInf, _ | _, PInf => PInf
  | NInf, _ | _, NInf => NInf
  end.

Definition sub (a b : number) : number := add a (neg b).

(** An infinity scaled by a finite factor: the sign of the factor decides,
    and a zero factor gives NaN. *)
Definition scale_inf (positive : bool) (x : R) : number :=
  if Rlt_dec 0 x then (if positive then PInf else NInf)
  else if Rlt_dec x 0 then (if positive then NInf else PInf)
  else NaN.

Definition mul (a b : number) : number :=
  match a, b with
  | NaN, _ | _, NaN => NaN
  | Num x, Num y => Num (x * y)
  | Num x, PInf | PInf, Num x => scale_inf true x
  | Num x, NInf | NInf, Num x => scale_inf false x
  | PInf, PInf | NInf, NInf => PInf
  | PInf, NInf | NInf, PInf => NInf
  end.

Definition div (a b : number) : number :=
  match a, b with
  | NaN, _ | _, NaN => NaN
  | Num x, Num y =>
      if Req_dec_T y 0 then scale_inf true x else Num (x / y)
  | Num _, (PInf | NInf) => Num 0
  | PInf, Num y => if Rlt_dec y 0 then NInf else PInf
  | NInf, Num y => if Rlt_dec y 0 then PInf else NInf
  | (PInf | NInf), (PInf | NInf) => NaN
  end.

(** The strict equality [a === b] on numbers. *)
Definition strict_eq (a b : number) : bool :=
  match a, b with
  | Num x, Num y => if Req_dec_T x y then true else false
  | PInf, PInf | NInf, NInf => true
  | _, _ => false
  end.

Infix "+" := add : js_scope.
Infix "-" := sub : js_scope.
Infix "*" := mul : js_scope.
Infix "/" := div : js_scope.
Infix "===" := strict_eq (at level 70, no associativity) : js_scope.

(** The functions and constants of the [Math] object that the component
    uses. *)
Module Math.

Definition PI : number := Num Rtrigo1.PI.

Definition sqrt (a : number) : number :=
  match a with
  | Num x => if Rlt_dec x 0 then NaN else Num (R_sqrt.sqrt x)
  | PInf => PInf
  | NInf | NaN => NaN
  end.

Definition acos (a : number) : number :=
  match a with
  | Num x =>
      if Rle_dec (-1) x then
        if Rle_dec x 1 then Num (Ratan.acos x) else NaN
      else NaN
  | _ => NaN
  end.

Definition cos (a : number) : number :=
  match a with Num x => Num (Rtrigo_def.cos x) | _ => NaN end.

Definition sin (a : number) : number :=
  match a with Num x => Num (Rtrigo_def.sin x) | _ => NaN end.

Definition atan2 (y x : number) : number :=
  match y, x with
  | NaN, _ | _, NaN => NaN
  | Num v, Num u => Num (Ratan2 v u)
  | Num v, PInf => Num 0
  | Num v, NInf =>
      if Rlt_dec v 0 then Num (- Rtrigo1.PI) else Num Rtrigo1.PI
  | PInf, Num _ => Num (Rtrigo1.PI / 2)
  | NInf, Num _ => Num (- (Rtrigo1.PI / 2))
  | PInf, PInf => Num (Rtrigo1.PI / 4)
  | PInf, NInf => Num (3 * Rtrigo1.PI / 4)
  | NInf, PInf => Num (- (Rtrigo1.PI / 4))
  | NInf, NInf => Num (- (3 * Rtrigo1.PI / 4))
  end.

Definition max (a b : number) : number :=
  match a, b with
  | NaN, _ | _, NaN => NaN
  | PInf, _ | _, PInf => PInf
  | NInf, c | c, NInf => c
  | Num x, Num y => Num (Rmax x y)
  end.

Definition min (a b : number) : number :=
  match a, b with
  | NaN, _ | _, NaN => NaN
  | NInf, _ | _, NInf => NInf
  | PInf, c | c, PInf => c
  | Num x, Num y => Num (Rmin x y)
  end.

End Math.

(** ** Arrays of numbers

    Reading an array past its end yields [undefined]; every use the component
    makes of such a value is arithmetic (or an argument of a [Math] function),
    where [undefined] is coerced to NaN. *)
Definition item (xs : list number) (i : nat) : number := nth i xs NaN.

(** ** Completions

    A call either returns a value or throws. *)

(** Modelled from the spec: the source declares no error type and contains no
    [throw]; [ReachabilityError] is the error of sections 4.1 and 7, carrying
    the target and the link lengths. *)
Inductive error : Type :=
| ReachabilityError (x y : number) (armLengths : list number).

Inductive completion (A : Type) : Type :=
| Return (a : A)
| Throw (e : error).
Arguments Return {A} a.
Arguments Throw {A} e.

(** ** Inverse kinematics *)

Local Open Scope js_scope.

Definition calculateInverseKinematics (x y : number) (armLengths : list number)
  : completion (list number) :=
  let l1 := item armLengths 0 in
  let l2 := item armLengths 1 in
  let l3 := item armLengths 2 in
  let theta1 := Math.atan2 y x in
  let r := Math.sqrt (x * x + y * y) in
  let a := r - l3 in
  let b := Math.sqrt (a * a + l2 * l2) in
  let c := Math.sqrt (l1 * l1 + b * b) in
  let theta3 := Math.acos ((l1 * l1 + b * b - c * c) / (Num 2 * l1 * b)) in
  let alpha := Math.atan2 a l2 in
  let beta := Math.acos ((l1 * l1 + c * c - b * b) / (Num 2 * l1 * c)) in
  let theta2 := alpha + beta in
  Return [theta1; theta2; theta3].

(** ** The base position and its click handler *)

Module Point.
Record t : Type := mk { x : number; y : number }.
End Point.

Record DOMRect : Type := { left : number }.

Record MouseEvent : Type := { clientX : number }.

(** ** The drawing surface

    The 2D context is a small state machine: two current styles, the current
    path, and the list of everything painted so far, oldest first. *)

Inductive subpath : Type :=
| MoveTo (x y : number)
| LineTo (x y : number)
| Arc (x y radius startAngle endAngle : number).

Inductive painting : Type :=
| FilledRect (x y w h : number) (style : string)
| StrokedRect (x y w h : number) (style : string)
| FilledPath (path : list subpath) (style : string)
| StrokedPath (path : list subpath) (style : string).

Record CanvasRenderingContext2D : Type := {
  fillStyle : string;
  strokeStyle : string;
  currentPath : list subpath;
  painted : list painting
}.

(** The state of a context whose canvas has just been resized: default
    styles, no path, nothing painted. *)
Definition blankContext : CanvasRenderingContext2D :=
  {| fillStyle := "#000000"; strokeStyle := "#000000";
     currentPath := []; painted := [] |}.

Definition set_fillStyle (s : string) (ctx : CanvasRenderingContext2D) :=
  {| fillStyle := s; strokeStyle := strokeStyle ctx;
     currentPath := currentPath ctx; painted := painted ctx |}.

Definition set_strokeStyle (s : string) (ctx : CanvasRenderingContext2D) :=
  {| fillStyle := fillStyle ctx; strokeStyle := s;
     currentPath := currentPath ctx; painted := painted ctx |}.

Definition with_path (p : list subpath) (ctx : CanvasRenderingContext2D) :=
  {| fillStyle := fillStyle ctx; strokeStyle := strokeStyle ctx;
     currentPath := p; painted := painted ctx |}.

Definition paint (p : painting) (ctx : CanvasRenderingContext2D) :=
  {| fillStyle := fillStyle ctx; strokeStyle := strokeStyle ctx;
     currentPath := currentPath ctx; painted := painted ctx ++ [p] |}.

Definition beginPath (ctx : CanvasRenderingContext2D) := with_path [] ctx.

Definition moveTo (x y : number) (ctx : CanvasRenderingContext2D) :=
  with_path (currentPath ctx ++ [MoveTo x y]) ctx.

Definition lineTo (x y : number) (ctx : CanvasRenderingContext2D) :=
  with_path (currentPath ctx ++ [LineTo x y]) ctx.

Definition arc (x y radius startAngle endAngle : number)
    (ctx : CanvasRenderingContext2D) :=
  with_path (currentPath ctx ++ [Arc x y radius startAngle endAngle]) ctx.

Definition stroke (ctx : CanvasRenderingContext2D) :=
  paint (StrokedPath (currentPath ctx) (strokeStyle ctx)) ctx.

Definition fill (ctx : CanvasRenderingContext2D) :=
  paint (FilledPath (currentPath ctx) (fillStyle ctx)) ctx.

Definition fillRect (x y w h : number) (ctx : CanvasRenderingContext2D) :=
  paint (FilledRect x y w h (fillStyle ctx)) ctx.

Definition strokeRect (x y w h : number) (ctx : CanvasRenderingContext2D) :=
  paint (StrokedRect x y w h (strokeStyle ctx)) ctx.

Record HTMLCanvasElement : Type := {
  width : number;
  height : number;
  boundingClientRect : DOMRect;
  parentClientWidth : option number;
  context2d : option CanvasRenderingContext2D
}.

(** Statements of the painters are sequenced with [ctx ;; f], read "then". *)
Notation "ctx ;; f" := (f ctx)
  (at level 61, left associativity, only parsing).

(** *** [useBasePosition] *)

Definition initialBasePosition : Point.t := Point.mk (Num 0) (Num 0).

Definition handleCanvasClick (baseWidth : number)
    (canvasRef : option HTMLCanvasElement) (event : MouseEvent)
    (prev : Point.t) : Point.t :=
  match canvasRef with
  | None => prev
  | Some canvas =>
      let rect := boundingClientRect canvas in
      let clickedX := clientX event - left rect in
      let newBaseX :=
        Math.min (Math.max (clickedX - baseWidth / Num 2) (Num 0))
                 (width canvas - baseWidth) in
      Point.mk newBaseX (Point.y prev)
  end.

(** ** The painters *)

Definition drawBase (ctx : CanvasRenderingContext2D)
    (baseX baseY baseWidth baseHeight wheelRadius canvasHeight
     groundHeight : number) : CanvasRenderingContext2D :=
  ctx ;; set_fillStyle "#000"
      ;; fillRect baseX baseY baseWidth baseHeight
      ;; strokeRect baseX baseY baseWidth baseHeight
      ;; beginPath
      ;; arc (baseX + wheelRadius)
             (canvasHeight - groundHeight - wheelRadius)
             wheelRadius (Num 0) (Num 2 * Math.PI)
      ;; arc (baseX + baseWidth - wheelRadius)
             (canvasHeight - groundHeight - wheelRadius)
             wheelRadius (Num 0) (Num 2 * Math.PI)
      ;; set_fillStyle "#928f8e"
      ;; fill.

Definition drawGripper (ctx : CanvasRenderingContext2D)
    (armLink3EndX armLink3EndY armTheta3 gripperWidth : number)
  : CanvasRenderingContext2D :=
  let gripperCenterX := armLink3EndX in
  let gripperCenterY := armLink3EndY in
  let gripperFinger1StartX :=
    gripperCenterX
    - (gripperWidth / Num 2) * Math.cos (armTheta3 - Math.PI / Num 2) in
  let gripperFinger1StartY :=
    gripperCenterY
    - (gripperWidth / Num 2) * Math.sin (armTheta3 - Math.PI / Num 2) in
  let gripperFinger1EndX := gripperCenterX in
  let gripperFinger1EndY := gripperCenterY in
  let gripperFinger2StartX := gripperCenterX in
  let gripperFinger2StartY := gripperCenterY in
  let gripperFinger2EndX :=
    gripperCenterX
    + (gripperWidth / Num 2) * Math.cos (armTheta3 - Math.PI / Num 2) in
  let gripperFinger2EndY :=
    gripperCenterY
    + (gripperWidth / Num 2) * Math.sin (armTheta3 - Math.PI / Num 2) in
  ctx ;; beginPath
      ;; moveTo gripperFinger1StartX gripperFinger1StartY
      ;; lineTo gripperFinger1EndX gripperFinger1EndY
      ;; set_strokeStyle "#e0f"
      ;; stroke
      ;; beginPath
      ;; moveTo gripperFinger2StartX gripperFinger2StartY
      ;; lineTo gripperFinger2EndX gripperFinger2EndY
      ;; set_strokeStyle "#00f"
      ;; stroke.

Definition drawArm (ctx : CanvasRenderingContext2D)
    (baseX baseY : number) (armLengths armThetas : list number)
    (baseWidth : number) : CanvasRenderingContext2D :=
  let armTheta1 := item armThetas 0 in
  let armTheta2 := item armThetas 1 in
  let armTheta3 := item armThetas 2 in
  let armLink1StartX := baseX + baseWidth / Num 1.25 in
  let armLink1StartY := baseY in
  let armLink1EndX :=
    armLink1StartX + item armLengths 0 * Math.cos armTheta1 in
  let armLink1EndY :=
    armLink1StartY - item armLengths 0 * Math.sin armTheta1 in
  let ctx :=
    ctx ;; beginPath
        ;; moveTo armLink1StartX armLink1StartY
        ;; lineTo armLink1EndX armLink1EndY
        ;; set_strokeStyle "#f00"
        ;; stroke in
  let armLink2StartX := armLink1EndX in
  let armLink2StartY := armLink1EndY in
  let armLink2EndX :=
    armLink2StartX + item armLengths 1 * Math.cos armTheta2 in
  let armLink2EndY :=
    armLink2StartY - item armLengths 1 * Math.sin armTheta2 in
  let ctx :=
    ctx ;; beginPath
        ;; moveTo armLink2StartX armLink2StartY
        ;; lineTo armLink2EndX armLink2EndY
        ;; set_strokeStyle "#0f0"
        ;; stroke in
  let armLink3StartX := armLink2EndX in
  let armLink3StartY := armLink2EndY in
  let armLink3EndX :=
    armLink3StartX + item armLengths 2 * Math.cos armTheta3 in
  let armLink3EndY :=
    armLink3StartY - item armLengths 2 * Math.sin armTheta3 in
  let ctx :=
    ctx ;; beginPath
        ;; moveTo armLink3StartX armLink3StartY
        ;; lineTo armLink3EndX armLink3EndY
        ;; set_strokeStyle "#f00"
        ;; stroke in
  let gripperWidth := Num 30 in
  drawGripper ctx armLink3EndX armLink3EndY armTheta3 gripperWidth.

(** ** The component [WMMCanvas] *)

Module WMMCanvas.

Definition baseWidth : number := Num 100.
Definition baseHeight : number := Num 40.
Definition wheelRadius : number := Num 10.
Definition armLengths : list number := [Num 60; Num 80; Num 60].
Definition armThetas : list number :=
  [Math.PI / Num 2; Num 0; neg Math.PI / Num 2].
Definition groundHeight : number := Num 40.

Section Effect.

(** What the canvas element holds after [canvas.width = v]: the DOM
    converts [v] to an unsigned integer.  The conversion belongs to the
    browser, so it is a parameter here. *)
Variable unsigned_long : number -> number.

(** The drawing effect: one run maps the canvas and the current base
    position to the repainted canvas and the base position of the next
    render.  [setBasePosition] takes effect after the run, so the
    painters still see the position the run started with.  Assigning
    the canvas size resets its context. *)
Definition effect (canvasRef : option HTMLCanvasElement)
    (basePosition : Point.t) : option HTMLCanvasElement * Point.t :=
  match canvasRef with
  | None => (None, basePosition)
  | Some canvas =>
      match context2d canvas with
      | None => (Some canvas, basePosition)
      | Some _ =>
          let canvas_width :=
            unsigned_long
              (match parentClientWidth canvas with
               | Some w => w
               | None => Num 0
               end * Num 0.8) in
          let canvas_height := Num 300 in
          let ctx :=
            blankContext
              ;; set_fillStyle "#ebe4d6"
              ;; fillRect (Num 0) (Num 0) canvas_width canvas_height
              ;; beginPath
              ;; moveTo (Num 0) (canvas_height - groundHeight)
              ;; lineTo canvas_width (canvas_height - groundHeight)
              ;; set_strokeStyle "#000"
              ;; stroke in
          let baseStartX := (canvas_width - baseWidth) / Num 2 in
          let baseY :=
            canvas_height - groundHeight - baseHeight - wheelRadius in
          let next :=
            if (Point.x basePosition === Num 0)
               && (Point.y basePosition === Num 0)
            then Point.mk baseStartX baseY
            else basePosition in
          let ctx :=
            drawBase ctx (Point.x basePosition) (Point.y basePosition)
              baseWidth baseHeight wheelRadius canvas_height
              groundHeight in
          let ctx :=
            drawArm ctx (Point.x basePosition) (Point.y basePosition)
              armLengths armThetas baseWidth in
          (Some {| width := canvas_width; height := canvas_height;
                   boundingClientRect := boundingClientRect canvas;
                   parentClientWidth := parentClientWidth canvas;
                   context2d := Some ctx |},
           next)
      end
  end.

End Effect.

End WMMCanvas.

(** ** Reading a scene back from what was painted *)

(** The stroked two-point paths, as (start, end) pairs. *)
Definition segment_of (p : painting)
  : option ((number * number) * (number * number)) :=
  match p with
  | StrokedPath [MoveTo x0 y0; LineTo x1 y1] _ => Some ((x0, y0), (x1, y1))
  | _ => None
  end.

Fixpoint segments (ps : list painting)
  : list ((number * number) * (number * number)) :=
  match ps with
  | [] => []
  | p :: ps' =>
      match segment_of p with
      | Some s => s :: segments ps'
      | None => segments ps'
      end
  end.

(** The circles among the filled paths, as (centre x, centre y, radius). *)
Fixpoint circles_of (path : list subpath)
  : list (number * number * number) :=
  match path with
  | [] => []
  | Arc x y r _ _ :: path' => (x, y, r) :: circles_of path'
  | _ :: path' => circles_of path'
  end.

Fixpoint circles (ps : list painting) : list (number * number * number) :=
  match ps with
  | [] => []
  | FilledPath path _ :: ps' => circles_of path ++ circles ps'
  | _ :: ps' => circles ps'
  end.

(** The end-effector: the end point of the third arm link that [drawArm]
    strokes. *)
Definition endEffector (baseX baseY : number)
    (armLengths armThetas : list number) (baseWidth : number)
  : number * number :=
  snd (nth 2 (segments
                (painted (drawArm blankContext baseX baseY armLengths
                            armThetas baseWidth)))
             ((NaN, NaN), (NaN, NaN))).

Local Close Scope js_scope.

(** ** The algorithm of the specification, over the reals

    Section 4.1 of the specification, steps 1 to 4, written with the real
    functions. *)
Module Spec.

Definition r (x y : R) : R := sqrt (x * x + y * y).
Definition a (x y l3 : R) : R := r x y - l3.
Definition b (x y l2 l3 : R) : R :=
  sqrt (a x y l3 * a x y l3 + l2 * l2).
Definition c (x y l1 l2 l3 : R) : R :=
  sqrt (l1 * l1 + b x y l2 l3 * b x y l2 l3).

Definition theta1 (x y : R) : R := Ratan2 y x.

Definition theta3 (x y l1 l2 l3 : R) : R :=
  acos ((l1 * l1 + b x y l2 l3 * b x y l2 l3
         - c x y l1 l2 l3 * c x y l1 l2 l3)
        / (2 * l1 * b x y l2 l3)).

Definition alpha (x y l2 l3 : R) : R := Ratan2 (a x y l3) l2.

Definition beta (x y l1 l2 l3 : R) : R :=
  acos ((l1 * l1 + c x y l1 l2 l3 * c x y l1 l2 l3
         - b x y l2 l3 * b x y l2 l3)
        / (2 * l1 * c x y l1 l2 l3)).

Definition theta2 (x y l1 l2 l3 : R) : R :=
  alpha x y l2 l3 + beta x y l1 l2 l3.

(** Forward kinematics of section 4.2: one link added to a chain that has
    reached [p], in screen coordinates. *)
Definition link (p : R * R) (l theta : R) : R * R :=
  (fst p + l * cos theta, snd p - l * sin theta).

(** Clamping [v] into the interval from [lo] to [hi]. *)
Definition clamp (lo hi v : R) : R :=
  if Rlt_dec v lo then lo else if Rlt_dec hi v then hi else v.

End Spec.

(** A point with finite coordinates, as the painters receive it. *)
Definition at_point (p : R * R) : number * number :=
  (Num (fst p), Num (snd p)).

(** The shoulder anchor and the three link ends of section 4.2. *)
Definition anchor (bx by_ bw : R) : R * R := (bx + bw / 1.25, by_).

Definition joint1 (bx by_ bw l1 t1 : R) : R * R :=
  Spec.link (anchor bx by_ bw) l1 t1.

Definition joint2 (bx by_ bw l1 l2 t1 t2 : R) : R * R :=
  Spec.link (joint1 bx by_ bw l1 t1) l2 t2.

Definition joint3 (bx by_ bw l1 l2 l3 t1 t2 t3 : R) : R * R :=
  Spec.link (joint2 bx by_ bw l1 l2 t1 t2) l3 t3.

(** The tip of a gripper finger, [side] being -1 or 1. *)
Definition finger (p : R * R) (t3 side : R) : R * R :=
  (fst p + side * (30 / 2 * cos (t3 - PI / 2)),
   snd p + side * (30 / 2 * sin (t3 - PI / 2))).

(** A canvas [w] pixels wide whose left edge is the left edge of the page,
    used to state the concrete scenarios. *)
Definition canvasOfWidth (w : R) : HTMLCanvasElement :=
  {| width := Num w; height := Num 300;
     boundingClientRect := {| left := Num 0 |};
     parentClientWidth := None;
     context2d := Some blankContext |}.

(** ** The intermediate values of the solver

    The constants [r], [a], [b], [c] of [calculateInverseKinematics] and the
    two inverse-cosine arguments, each as the source computes it. *)
Module Solver.

Local Open Scope js_scope.

Definition r (x y : number) : number := Math.sqrt (x * x + y * y).

Definition a (x y : number) (armLengths : list number) : number :=
  r x y - item armLengths 2.

Definition b (x y : number) (armLengths : list number) : number :=
  Math.sqrt (a x y armLengths * a x y armLengths
             + item armLengths 1 * item armLengths 1).

Definition c (x y : number) (armLengths : list number) : number :=
  Math.sqrt (item armLengths 0 * item armLengths 0
             + b x y armLengths * b x y armLengths).

Definition numerator3 (x y : number) (armLengths : list number) : number :=
  item armLengths 0 * item armLengths 0
  + b x y armLengths * b x y armLengths
  - c x y armLengths * c x y armLengths.

Definition denominator3 (x y : number) (armLengths : list number)
  : number :=
  Num 2 * item armLengths 0 * b x y armLengths.

Definition ratio3 (x y : number) (armLengths : list number) : number :=
  numerator3 x y armLengths / denominator3 x y armLengths.

Definition numerator2 (x y : number) (armLengths : list number) : number :=
  item armLengths 0 * item armLengths 0
  + c x y armLengths * c x y armLengths
  - b x y armLengths * b x y armLengths.

Definition denominator2 (x y : number) (armLengths : list number)
  : number :=
  Num 2 * item armLengths 0 * c x y armLengths.

Definition ratio2 (x y : number) (armLengths : list number) : number :=
  numerator2 x y armLengths / denominator2 x y armLengths.

End Solver.

(** A number on which [Math.acos] is defined: finite and within [-1, 1]. *)
Definition in_acos_domain (v : number) : Prop :=
  match v with
  | Num u => (-1 <= u <= 1)%R
  | _ => False
  end.


(** ** The solver in binary64

    Lines 7 to 21 of the source once more, over IEEE 754 binary64 with
    round-to-nearest, which is what [+], [-], [*], [/] and [Math.sqrt] are
    in JavaScript.  [Math.atan2] and [Math.acos] are the engine's (the
    language leaves their precision to the implementation), so they are
    parameters.  The array is taken with its three entries. *)
Module Binary64.

Import PrimFloat.
Local Open Scope float_scope.

Definition r (x y : float) : float := sqrt (x * x + y * y).

Definition a (x y l3 : float) : float := r x y - l3.

Definition b (x y l2 l3 : float) : float :=
  sqrt (a x y l3 * a x y l3 + l2 * l2).

Definition c (x y l1 l2 l3 : float) : float :=
  sqrt (l1 * l1 + b x y l2 l3 * b x y l2 l3).

Definition ratio3 (x y l1 l2 l3 : float) : float :=
  (l1 * l1 + b x y l2 l3 * b x y l2 l3
   - c x y l1 l2 l3 * c x y l1 l2 l3)
  / (2 * l1 * b x y l2 l3).

Definition ratio2 (x y l1 l2 l3 : float) : float :=
  (l1 * l1 + c x y l1 l2 l3 * c x y l1 l2 l3
   - b x y l2 l3 * b x y l2 l3)
  / (2 * l1 * c x y l1 l2 l3).

Section Engine.

Variable atan2 : float -> float -> float.
Variable acos : float -> float.

Definition calculateInverseKinematics (x y l1 l2 l3 : float)
  : float * float * float :=
  let theta1 := atan2 y x in
  let r := sqrt (x * x + y * y) in
  let a := r - l3 in
  let b := sqrt (a * a + l2 * l2) in
  let c := sqrt (l1 * l1 + b * b) in
  let theta3 := acos ((l1 * l1 + b * b - c * c) / (2 * l1 * b)) in
  let alpha := atan2 a l2 in
  let beta := acos ((l1 * l1 + c * c - b * b) / (2 * l1 * c)) in
  let theta2 := alpha + beta in
  (theta1, theta2, theta3).

End Engine.

End Binary64.

(** ** The component as a state machine

    The only state of [WMMCanvas] is the base position.  It changes in two
    ways: a run of the drawing effect (a render), and a click handled by the
    listener that [useBasePosition] registers for the component's
    [baseWidth].  The canvas seen by each step is whatever the ref holds at
    that moment. *)
Inductive action : Type :=
| Render (canvasRef : option HTMLCanvasElement)
| Click (canvasRef : option HTMLCanvasElement) (event : MouseEvent).

Definition is_click (a : action) : bool :=
  match a with Click _ _ => true | Render _ => false end.

Section Component.

Variable unsigned_long : number -> number.

Definition step (p : Point.t) (a : action) : Point.t :=
  match a with
  | Render canvasRef => snd (WMMCanvas.effect unsigned_long canvasRef p)
  | Click canvasRef event =>
      handleCanvasClick WMMCanvas.baseWidth canvasRef event p
  end.

Definition run (p : Point.t) (actions : list action) : Point.t :=
  fold_left step actions p.

End Component.

(** ** Plane geometry used to read the painted scene *)

Definition dist (p q : R * R) : R :=
  sqrt ((fst q - fst p) * (fst q - fst p)
        + (snd q - snd p) * (snd q - snd p)).

Definition dot (u v : R * R) : R := fst u * fst v + snd u * snd v.

Definition vec (p q : R * R) : R * R := (fst q - fst p, snd q - snd p).

(** A painted segment moved by the finite offset (dx, dy). *)
Definition shift (dx dy : R)
    (s : (number * number) * (number * number))
  : (number * number) * (number * number) :=
  ((add (fst (fst s)) (Num dx), add (snd (fst s)) (Num dy)),
   (add (fst (snd s)) (Num dx), add (snd (snd s)) (Num dy))).

(** * Properties *)

(** ** Evaluating the number operations on finite values *)

Lemma sqrt_Num (v : R) : 0 <= v -> Math.sqrt (Num v) = Num (sqrt v).
Proof.
  intros Hv. unfold Math.sqrt.
  destruct (Rlt_dec v 0) as [Hneg | _]; [lra | reflexivity].
Qed.

Lemma div_Num (u v : R) : v <> 0 -> div (Num u) (Num v) = Num (u / v).
Proof.
  intros Hv. unfold div.
  destruct (Req_dec_T v 0) as [H0 | _]; [contradiction | reflexivity].
Qed.

Lemma div_zero_zero : div (Num 0) (Num 0) = NaN.
Proof.
  unfold div, scale_inf.
  destruct (Req_dec_T 0 0) as [_ | H]; [| now elim H].
  destruct (Rlt_dec 0 0) as [H | _]; [lra | reflexivity].
Qed.

Lemma acos_Num (v : R) : -1 <= v <= 1 -> Math.acos (Num v) = Num (acos v).
Proof.
  intros [Hlo Hhi]. unfold Math.acos.
  destruct (Rle_dec (-1) v) as [_ | H]; [| contradiction].
  destruct (Rle_dec v 1) as [_ | H]; [reflexivity | contradiction].
Qed.

(** ** The geometry of the solver *)

Lemma r_sq_nonneg (x y : R) : 0 <= x * x + y * y.
Proof. nra. Qed.

Lemma b_nonneg (x y l2 l3 : R) : 0 <= Spec.b x y l2 l3.
Proof. apply sqrt_pos. Qed.

(** [c] is the hypotenuse of a right triangle with legs [l1] and [b]. *)
Lemma c_square (x y l1 l2 l3 : R) :
  Spec.c x y l1 l2 l3 * Spec.c x y l1 l2 l3
  = l1 * l1 + Spec.b x y l2 l3 * Spec.b x y l2 l3.
Proof. unfold Spec.c. apply sqrt_sqrt. nra. Qed.

Lemma c_positive (x y l1 l2 l3 : R) :
  l1 <> 0 -> 0 < Spec.c x y l1 l2 l3.
Proof.
  intros Hl1. unfold Spec.c. apply sqrt_lt_R0.
  assert (0 < l1 * l1) by nra.
  pose proof (b_nonneg x y l2 l3). nra.
Qed.

Lemma c_of_zero_l1 (x y l2 l3 : R) :
  Spec.c x y 0 l2 l3 = Spec.b x y l2 l3.
Proof.
  unfold Spec.c. rewrite Rmult_0_l, Rplus_0_l.
  apply sqrt_square, b_nonneg.
Qed.

(** The first inverse-cosine argument has numerator zero. *)
Lemma numerator3_zero (x y l1 l2 l3 : R) :
  l1 * l1 + Spec.b x y l2 l3 * Spec.b x y l2 l3
  - Spec.c x y l1 l2 l3 * Spec.c x y l1 l2 l3 = 0.
Proof. rewrite c_square. ring. Qed.

(** The second inverse-cosine argument is [l1 / c], the cosine of the angle
    at the shoulder of that right triangle. *)
Lemma ratio2_value (x y l1 l2 l3 : R) :
  l1 <> 0 ->
  (l1 * l1 + Spec.c x y l1 l2 l3 * Spec.c x y l1 l2 l3
   - Spec.b x y l2 l3 * Spec.b x y l2 l3)
  / (2 * l1 * Spec.c x y l1 l2 l3)
  = l1 / Spec.c x y l1 l2 l3.
Proof.
  intros Hl1. pose proof (c_positive x y l1 l2 l3 Hl1) as Hc.
  rewrite c_square. field. split; lra.
Qed.

Lemma ratio2_bounds (x y l1 l2 l3 : R) :
  l1 <> 0 -> -1 <= l1 / Spec.c x y l1 l2 l3 <= 1.
Proof.
  intros Hl1. pose proof (c_positive x y l1 l2 l3 Hl1) as Hc.
  pose proof (c_square x y l1 l2 l3) as Hsq.
  pose proof (b_nonneg x y l2 l3) as Hb.
  assert (Hle : l1 * l1 <= Spec.c x y l1 l2 l3 * Spec.c x y l1 l2 l3) by nra.
  assert (Habs : - Spec.c x y l1 l2 l3 <= l1 <= Spec.c x y l1 l2 l3) by nra.
  split.
  - apply Rmult_le_reg_r with (Spec.c x y l1 l2 l3); [exact Hc |].
    unfold Rdiv. rewrite Rmult_assoc, Rinv_l by lra. lra.
  - apply Rmult_le_reg_r with (Spec.c x y l1 l2 l3); [exact Hc |].
    unfold Rdiv. rewrite Rmult_assoc, Rinv_l by lra. lra.
Qed.

(** On finite arguments the solver always gets as far as the two
    inverse-cosine calls: every square root has a non-negative argument. *)
Lemma solver_unfolded (x y l1 l2 l3 : R) :
  calculateInverseKinematics (Num x) (Num y) [Num l1; Num l2; Num l3]
  = Return
      [ Num (Spec.theta1 x y);
        add (Num (Spec.alpha x y l2 l3))
            (Math.acos
               (div (Num (l1 * l1
                          + Spec.c x y l1 l2 l3 * Spec.c x y l1 l2 l3
                          - Spec.b x y l2 l3 * Spec.b x y l2 l3))
                    (Num (2 * l1 * Spec.c x y l1 l2 l3))));
        Math.acos
          (div (Num (l1 * l1 + Spec.b x y l2 l3 * Spec.b x y l2 l3
                     - Spec.c x y l1 l2 l3 * Spec.c x y l1 l2 l3))
               (Num (2 * l1 * Spec.b x y l2 l3))) ].
Proof.
  unfold calculateInverseKinematics, item. cbn [nth mul add sub neg].
  rewrite (sqrt_Num (x * x + y * y)) by apply r_sq_nonneg.
  cbn [mul add sub neg].
  fold (Spec.r x y). fold (Rminus (Spec.r x y) l3). fold (Spec.a x y l3).
  rewrite (sqrt_Num (Spec.a x y l3 * Spec.a x y l3 + l2 * l2)) by nra.
  fold (Spec.b x y l2 l3). cbn [mul add sub neg].
  rewrite (sqrt_Num (l1 * l1 + Spec.b x y l2 l3 * Spec.b x y l2 l3)) by nra.
  fold (Spec.c x y l1 l2 l3). cbn [mul add sub neg Math.atan2].
  reflexivity.
Qed.

Lemma b_positive (x y l2 l3 : R) : l2 <> 0 -> 0 < Spec.b x y l2 l3.
Proof.
  intros Hl2. unfold Spec.b. apply sqrt_lt_R0.
  assert (0 < l2 * l2) by nra.
  assert (0 <= Spec.a x y l3 * Spec.a x y l3) by nra. lra.
Qed.

(** Away from the two zero denominators the solver returns three finite
    angles, the last of which is a right angle. *)
Lemma solver_finite (x y l1 l2 l3 : R) :
  l1 <> 0 -> Spec.b x y l2 l3 <> 0 ->
  calculateInverseKinematics (Num x) (Num y) [Num l1; Num l2; Num l3]
  = Return [ Num (Spec.theta1 x y);
             Num (Spec.alpha x y l2 l3 + acos (l1 / Spec.c x y l1 l2 l3));
             Num (PI / 2) ].
Proof.
  intros Hl1 Hb. rewrite solver_unfolded.
  pose proof (c_positive x y l1 l2 l3 Hl1) as Hc.
  rewrite numerator3_zero.
  rewrite (div_Num 0 (2 * l1 * Spec.b x y l2 l3)) by nra.
  rewrite (div_Num _ (2 * l1 * Spec.c x y l1 l2 l3)) by nra.
  rewrite ratio2_value by exact Hl1.
  rewrite (acos_Num (l1 / Spec.c x y l1 l2 l3))
    by (apply ratio2_bounds; exact Hl1).
  replace (0 / (2 * l1 * Spec.b x y l2 l3)) with 0
    by (unfold Rdiv; ring).
  rewrite (acos_Num 0) by lra.
  rewrite acos_0. reflexivity.
Qed.

(** ** The inverse-kinematics claims *)

(** C3.  On its domain (finite target and link lengths with [l1] and [b]
    different from zero) [calculateInverseKinematics] returns exactly the
    triple of the specification's algorithm: theta1 = atan2(y, x),
    theta2 = atan2(a, l2) + acos((l1^2 + c^2 - b^2) / (2 l1 c)) and
    theta3 = acos((l1^2 + b^2 - c^2) / (2 l1 b)), with r, a, b and c as the
    specification defines them. *)
Theorem solver_refines_algorithm (x y l1 l2 l3 : R) :
  l1 <> 0 -> Spec.b x y l2 l3 <> 0 ->
  calculateInverseKinematics (Num x) (Num y) [Num l1; Num l2; Num l3]
  = Return [ Num (Spec.theta1 x y);
             Num (Spec.theta2 x y l1 l2 l3);
             Num (Spec.theta3 x y l1 l2 l3) ].
Proof.
  intros Hl1 Hb. rewrite (solver_finite x y l1 l2 l3 Hl1 Hb).
  unfold Spec.theta2, Spec.theta3, Spec.beta.
  rewrite ratio2_value by exact Hl1.
  rewrite numerator3_zero.
  replace (0 / (2 * l1 * Spec.b x y l2 l3)) with 0
    by (unfold Rdiv; ring).
  rewrite acos_0. reflexivity.
Qed.

Lemma solver_refines_algorithm_witness :
  60 <> 0 /\ Spec.b 100 50 80 60 <> 0 /\
  calculateInverseKinematics (Num 100) (Num 50) [Num 60; Num 80; Num 60]
  = Return [ Num (Spec.theta1 100 50);
             Num (Spec.theta2 100 50 60 80 60);
             Num (Spec.theta3 100 50 60 80 60) ].
Proof.
  assert (H60 : 60 <> 0) by lra.
  assert (Hb : Spec.b 100 50 80 60 <> 0)
    by (apply Rgt_not_eq, b_positive; lra).
  split; [exact H60 | split; [exact Hb |]].
  exact (solver_refines_algorithm 100 50 60 80 60 H60 Hb).
Defined.

(** The solver has no failing path: whatever it is given, it returns. *)
Lemma solver_never_throws (x y : number) (armLengths : list number)
    (e : error) :
  calculateInverseKinematics x y armLengths <> Throw e.
Proof. unfold calculateInverseKinematics. discriminate. Qed.

(** The solver in terms of its intermediate values. *)
Lemma solver_by_parts (x y : number) (armLengths : list number) :
  calculateInverseKinematics x y armLengths
  = Return [ Math.atan2 y x;
             add (Math.atan2 (Solver.a x y armLengths) (item armLengths 1))
                 (Math.acos (Solver.ratio2 x y armLengths));
             Math.acos (Solver.ratio3 x y armLengths) ].
Proof. reflexivity. Qed.

Lemma acos_outside_domain (v : number) :
  ~ in_acos_domain v -> Math.acos v = NaN.
Proof.
  intros Hout. destruct v as [u | | |]; try reflexivity.
  unfold Math.acos.
  destruct (Rle_dec (-1) u) as [Hlo | _]; [| reflexivity].
  destruct (Rle_dec u 1) as [Hhi | _]; [| reflexivity].
  exfalso. apply Hout. cbn. split; assumption.
Qed.

(** A product with a zero factor is zero or NaN, never anything else. *)
Lemma mul_zero_l (u : R) (v : number) :
  u = 0 -> mul (Num u) v = NaN \/ exists w : R, mul (Num u) v = Num w /\ w = 0.
Proof.
  intros ->. destruct v as [w | | |]; cbn.
  - right. eexists. split; [reflexivity | ring].
  - left. unfold scale_inf.
    destruct (Rlt_dec 0 0) as [H | _]; [lra | reflexivity].
  - left. unfold scale_inf.
    destruct (Rlt_dec 0 0) as [H | _]; [lra | reflexivity].
  - left. reflexivity.
Qed.

Lemma mul_zero_r (v : number) (u : R) :
  u = 0 -> mul v (Num u) = NaN \/ exists w : R, mul v (Num u) = Num w /\ w = 0.
Proof.
  intros ->. destruct v as [w | | |]; cbn.
  - right. eexists. split; [reflexivity | ring].
  - left. unfold scale_inf.
    destruct (Rlt_dec 0 0) as [H | _]; [lra | reflexivity].
  - left. unfold scale_inf.
    destruct (Rlt_dec 0 0) as [H | _]; [lra | reflexivity].
  - left. reflexivity.
Qed.

(** Dividing by zero or by NaN gives an infinity or NaN, on which
    [Math.acos] is NaN. *)
Lemma acos_of_division_by_zero (n d : number) :
  d = NaN \/ (exists w : R, d = Num w /\ w = 0) ->
  Math.acos (div n d) = NaN.
Proof.
  intros [-> | (w & -> & ->)].
  - destruct n; reflexivity.
  - destruct n as [u | | |]; cbn.
    + destruct (Req_dec_T 0 0) as [_ | H]; [| now elim H].
      unfold scale_inf.
      destruct (Rlt_dec 0 u); [reflexivity |].
      destruct (Rlt_dec u 0); reflexivity.
    + destruct (Rlt_dec 0 0); reflexivity.
    + destruct (Rlt_dec 0 0); reflexivity.
    + reflexivity.
Qed.


Module Rounding.

Import PrimFloat.


End Rounding.



(** C1, as stated, fails.  With [l1 = 0], target (1, 0) and the other two
    links of length 1, the solver throws nothing, and the triple it returns
    has NaN as its third angle. *)
Lemma zero_link_returns_NaN :
  (forall e : error,
     calculateInverseKinematics (Num 1) (Num 0) [Num 0; Num 1; Num 1]
     <> Throw e)
  /\ exists theta1 theta2 : number,
       calculateInverseKinematics (Num 1) (Num 0) [Num 0; Num 1; Num 1]
       = Return [theta1; theta2; NaN].
Proof.
  split.
  - intros e. apply solver_never_throws.
  - eexists. eexists. rewrite solver_unfolded.
    rewrite numerator3_zero.
    replace (2 * 0 * Spec.b 1 0 1 1) with 0 by ring.
    rewrite div_zero_zero. reflexivity.
Qed.

(** C1, amended.  For every target and every link lengths the solver raises
    no error: it returns a triple whose first angle is atan2(y, x).
    Whenever [l1 = 0] or the [b] it computes is 0, the third angle returned
    is NaN, and the second is NaN as well when [l1 = 0]; whenever the first
    (the second) inverse-cosine argument it computes is not a number within
    [-1, 1], the third (the second) angle returned is NaN. *)
Theorem solver_returns_NaN_instead_of_failing (x y : number)
    (armLengths : list number) :
  (forall e : error, calculateInverseKinematics x y armLengths <> Throw e)
  /\ exists theta2 theta3 : number,
       calculateInverseKinematics x y armLengths
       = Return [Math.atan2 y x; theta2; theta3]
       /\ (item armLengths 0 = Num 0 \/ Solver.b x y armLengths = Num 0 ->
           theta3 = NaN)
       /\ (item armLengths 0 = Num 0 -> theta2 = NaN)
       /\ (~ in_acos_domain (Solver.ratio3 x y armLengths) ->
           theta3 = NaN)
       /\ (~ in_acos_domain (Solver.ratio2 x y armLengths) ->
           theta2 = NaN).
Proof.
  split; [intros e; apply solver_never_throws |].
  do 2 eexists. split; [apply solver_by_parts |].
  split; [| split; [| split]].
  - intros Hdeg. unfold Solver.ratio3, Solver.denominator3.
    apply acos_of_division_by_zero.
    destruct Hdeg as [Hl1 | Hb].
    + rewrite Hl1. cbn [mul].
      apply mul_zero_l. ring.
    + rewrite Hb. apply mul_zero_r. reflexivity.
  - intros Hl1. unfold Solver.ratio2, Solver.denominator2.
    rewrite acos_of_division_by_zero.
    + destruct (Math.atan2 (Solver.a x y armLengths) (item armLengths 1));
        reflexivity.
    + rewrite Hl1. cbn [mul]. apply mul_zero_l. ring.
  - apply acos_outside_domain.
  - intros Hout. rewrite (acos_outside_domain _ Hout).
    destruct (Math.atan2 (Solver.a x y armLengths) (item armLengths 1));
      reflexivity.
Qed.

Lemma solver_returns_NaN_instead_of_failing_witness :
  item [Num 0; Num 1; Num 1] 0 = Num 0
  /\ exists theta2 theta3 : number,
       calculateInverseKinematics (Num 1) (Num 0) [Num 0; Num 1; Num 1]
       = Return [Math.atan2 (Num 0) (Num 1); theta2; theta3]
       /\ theta3 = NaN /\ theta2 = NaN.
Proof.
  assert (Hl1 : item [Num 0; Num 1; Num 1] 0 = Num 0) by reflexivity.
  split; [exact Hl1 |].
  destruct (solver_returns_NaN_instead_of_failing (Num 1) (Num 0)
              [Num 0; Num 1; Num 1])
    as (_ & theta2 & theta3 & Heq & H3 & H2 & _).
  exists theta2, theta3.
  split; [exact Heq | split].
  - apply H3. left. exact Hl1.
  - apply H2. exact Hl1.
Defined.

(** C4, as stated, fails.  The target (4, 0) is farther from the shoulder
    than the three unit links can reach, and the solver throws nothing. *)
Lemma out_of_reach_does_not_throw :
  1 + 1 + 1 < sqrt (4 * 4 + 0 * 0)
  /\ forall e : error,
       calculateInverseKinematics (Num 4) (Num 0) [Num 1; Num 1; Num 1]
       <> Throw e.
Proof.
  split.
  - replace (4 * 4 + 0 * 0) with (4 * 4) by ring.
    rewrite sqrt_square by lra. lra.
  - intros e. apply solver_never_throws.
Qed.

(** C4, amended.  The solver makes no reachability test.  For every target,
    so in particular for every target farther from the shoulder than
    [l1 + l2 + l3], and for every link lengths, it raises no error and
    returns the triple of its formulas: atan2(y, x), then atan2(a, l2) plus
    the inverse cosine of the second ratio, then the inverse cosine of the
    first ratio. *)
Theorem solver_has_no_reachability_test (x y : number)
    (armLengths : list number) :
  (forall e : error, calculateInverseKinematics x y armLengths <> Throw e)
  /\ calculateInverseKinematics x y armLengths
     = Return [ Math.atan2 y x;
                add (Math.atan2 (sub (Solver.r x y) (item armLengths 2))
                       (item armLengths 1))
                    (Math.acos (Solver.ratio2 x y armLengths));
                Math.acos (Solver.ratio3 x y armLengths) ].
Proof.
  split.
  - intros e. apply solver_never_throws.
  - rewrite solver_by_parts. reflexivity.
Qed.

(** In the exact arithmetic of this model, for a target on the reach
    boundary of three unit links the returned first and third angles are 0
    and pi/2: the first and the last link are perpendicular, not
    collinear. *)
Remark boundary_chain_is_bent :
  1 + 1 + 1 = sqrt (3 * 3 + 0 * 0)
  /\ exists theta2 : R,
       calculateInverseKinematics (Num 3) (Num 0) [Num 1; Num 1; Num 1]
       = Return [Num 0; Num theta2; Num (PI / 2)].
Proof.
  split.
  - replace (3 * 3 + 0 * 0) with (3 * 3) by ring.
    rewrite sqrt_square by lra. lra.
  - eexists. rewrite solver_finite.
    + unfold Spec.theta1, Ratan2.
      destruct (Rlt_dec 0 3) as [_ | H]; [| lra].
      replace (0 / 3) with 0 by (unfold Rdiv; ring).
      rewrite atan_0. reflexivity.
    + lra.
    + apply Rgt_not_eq, b_positive. lra.
Qed.

(** ** What the painters paint *)

Lemma segments_app (ps qs : list painting) :
  segments (ps ++ qs) = segments ps ++ segments qs.
Proof.
  induction ps as [| p ps IH]; [reflexivity |].
  cbn [app segments]. destruct (segment_of p); rewrite IH; reflexivity.
Qed.

Lemma circles_app (ps qs : list painting) :
  circles (ps ++ qs) = circles ps ++ circles qs.
Proof.
  induction ps as [| p ps IH]; [reflexivity |].
  cbn [app circles]. destruct p; rewrite IH; try reflexivity.
  apply app_assoc.
Qed.

Lemma drawArm_segments (ctx : CanvasRenderingContext2D)
    (bx by_ bw l1 l2 l3 t1 t2 t3 : R) :
  segments
    (painted (drawArm ctx (Num bx) (Num by_) [Num l1; Num l2; Num l3]
                [Num t1; Num t2; Num t3] (Num bw)))
  = segments (painted ctx)
    ++ [ (at_point (anchor bx by_ bw), at_point (joint1 bx by_ bw l1 t1));
         (at_point (joint1 bx by_ bw l1 t1),
          at_point (joint2 bx by_ bw l1 l2 t1 t2));
         (at_point (joint2 bx by_ bw l1 l2 t1 t2),
          at_point (joint3 bx by_ bw l1 l2 l3 t1 t2 t3));
         (at_point (finger (joint3 bx by_ bw l1 l2 l3 t1 t2 t3) t3 (-1)),
          at_point (joint3 bx by_ bw l1 l2 l3 t1 t2 t3));
         (at_point (joint3 bx by_ bw l1 l2 l3 t1 t2 t3),
          at_point (finger (joint3 bx by_ bw l1 l2 l3 t1 t2 t3) t3 1)) ].
Proof.
  unfold drawArm, drawGripper, item, Math.PI.
  cbn -[div].
  rewrite !div_Num by lra.
  cbn.
  rewrite !segments_app. cbn [segments segment_of].
  rewrite <- !app_assoc. cbn [app].
  unfold at_point, finger, joint3, joint2, joint1, anchor, Spec.link.
  cbn [fst snd].
  repeat (f_equal; try (unfold Rminus; ring)).
Qed.

Lemma endEffector_finite (bx by_ bw l1 l2 l3 t1 t2 t3 : R) :
  endEffector (Num bx) (Num by_) [Num l1; Num l2; Num l3]
    [Num t1; Num t2; Num t3] (Num bw)
  = at_point (joint3 bx by_ bw l1 l2 l3 t1 t2 t3).
Proof.
  unfold endEffector. rewrite drawArm_segments. reflexivity.
Qed.

(** C5.  For a finite base pose, base width, link lengths and joint angles,
    [drawArm] strokes the three links as a chain: it starts at the shoulder
    anchor (base.x + width / 1.25, base.y), each link ends at the previous
    end plus (l cos theta, - l sin theta) for that link's own angle, each
    link starts where the previous one ends, and the end of the third link
    is the end-effector, which both gripper fingers share. *)
Theorem arm_is_a_kinematic_chain (ctx : CanvasRenderingContext2D)
    (bx by_ bw l1 l2 l3 t1 t2 t3 : R) :
  let shoulder := (bx + bw / 1.25, by_) in
  let end1 := (fst shoulder + l1 * cos t1, snd shoulder - l1 * sin t1) in
  let end2 := (fst end1 + l2 * cos t2, snd end1 - l2 * sin t2) in
  let end3 := (fst end2 + l3 * cos t3, snd end2 - l3 * sin t3) in
  (exists tip1 tip2 : number * number,
     segments
       (painted (drawArm ctx (Num bx) (Num by_) [Num l1; Num l2; Num l3]
                   [Num t1; Num t2; Num t3] (Num bw)))
     = segments (painted ctx)
       ++ [ (at_point shoulder, at_point end1);
            (at_point end1, at_point end2);
            (at_point end2, at_point end3);
            (tip1, at_point end3);
            (at_point end3, tip2) ])
  /\ endEffector (Num bx) (Num by_) [Num l1; Num l2; Num l3]
       [Num t1; Num t2; Num t3] (Num bw)
     = at_point end3.
Proof.
  cbv zeta. split.
  - eexists. eexists. rewrite drawArm_segments. reflexivity.
  - rewrite endEffector_finite. reflexivity.
Qed.

(** ** The round trip through the solver *)

Lemma scenario_theta1_bounds : 0 < Spec.theta1 100 50 < PI / 2.
Proof.
  unfold Spec.theta1, Ratan2.
  destruct (Rlt_dec 0 100) as [_ | H]; [| lra].
  pose proof (atan_bound (50 / 100)) as Hb.
  pose proof (atan_increasing 0 (50 / 100)) as Hi.
  rewrite atan_0 in Hi. lra.
Qed.

Lemma scenario_a_positive : 0 < Spec.a 100 50 60.
Proof.
  unfold Spec.a, Spec.r.
  assert (H : sqrt (60 * 60) < sqrt (100 * 100 + 50 * 50))
    by (apply sqrt_lt_1_alt; lra).
  rewrite sqrt_square in H by lra. lra.
Qed.

Lemma scenario_alpha_bounds : 0 < Spec.alpha 100 50 80 60 < PI / 2.
Proof.
  unfold Spec.alpha, Ratan2.
  destruct (Rlt_dec 0 80) as [_ | H]; [| lra].
  pose proof scenario_a_positive as Ha.
  pose proof (atan_bound (Spec.a 100 50 60 / 80)) as Hb.
  pose proof (atan_increasing 0 (Spec.a 100 50 60 / 80)) as Hi.
  rewrite atan_0 in Hi. lra.
Qed.

(** The inverse cosine of a positive ratio is an acute angle. *)
Lemma acos_acute (v : R) : 0 < v <= 1 -> 0 <= acos v < PI / 2.
Proof.
  intros [Hpos Hle].
  pose proof (acos_bound v) as [Hlo Hhi].
  split; [exact Hlo |].
  destruct (Rlt_dec (acos v) (PI / 2)) as [Hlt | Hge]; [exact Hlt |].
  exfalso.
  assert (Hcos : cos (acos v) <= 0).
  { apply cos_le_0; [lra |]. pose proof PI_RGT_0. lra. }
  rewrite cos_acos in Hcos by lra. lra.
Qed.

Lemma scenario_beta_bounds :
  0 <= acos (60 / Spec.c 100 50 60 80 60) < PI / 2.
Proof.
  apply acos_acute.
  assert (H60 : 60 <> 0) by lra.
  pose proof (c_positive 100 50 60 80 60 H60) as Hc.
  pose proof (ratio2_bounds 100 50 60 80 60 H60) as [_ Hhi].
  split; [| exact Hhi].
  apply Rdiv_lt_0_compat; lra.
Qed.

(** C2, evaluated at the specification's own scenario.  For link lengths
    [60, 80, 60] and target (100, 50) the solver returns three finite
    angles, and the forward chain of [drawArm] from the anchor (0, 0) with
    those angles ends at a point whose second coordinate is below -60: it is
    farther than 110 from (100, 50), and its mirror image in the horizontal
    axis misses the target as well. *)
Theorem round_trip_misses_target :
  exists theta1 theta2 theta3 ex ey : R,
    calculateInverseKinematics (Num 100) (Num 50) WMMCanvas.armLengths
    = Return [Num theta1; Num theta2; Num theta3]
    /\ endEffector (Num 0) (Num 0) WMMCanvas.armLengths
         [Num theta1; Num theta2; Num theta3] (Num 0)
       = (Num ex, Num ey)
    /\ ey < -60
    /\ 110 < sqrt ((ex - 100) * (ex - 100) + (ey - 50) * (ey - 50)).
Proof.
  set (t1 := Spec.theta1 100 50).
  set (t2 := Spec.alpha 100 50 80 60 + acos (60 / Spec.c 100 50 60 80 60)).
  exists t1, t2, (PI / 2).
  exists (fst (joint3 0 0 0 60 80 60 t1 t2 (PI / 2))).
  exists (snd (joint3 0 0 0 60 80 60 t1 t2 (PI / 2))).
  assert (Hy : snd (joint3 0 0 0 60 80 60 t1 t2 (PI / 2)) < -60).
  { unfold joint3, joint2, joint1, anchor, Spec.link. cbn [fst snd].
    rewrite sin_PI2.
    pose proof scenario_theta1_bounds as H1. fold t1 in H1.
    pose proof scenario_alpha_bounds as Ha.
    pose proof scenario_beta_bounds as Hb.
    pose proof PI_RGT_0 as Hpi.
    assert (Hs1 : 0 < sin t1) by (apply sin_gt_0; lra).
    assert (Hs2 : 0 < sin t2) by (apply sin_gt_0; unfold t2; lra).
    lra. }
  split; [| split; [| split]].
  - unfold WMMCanvas.armLengths. apply solver_finite.
    + lra.
    + apply Rgt_not_eq, b_positive. lra.
  - unfold WMMCanvas.armLengths. rewrite endEffector_finite. reflexivity.
  - exact Hy.
  - set (ex := fst (joint3 0 0 0 60 80 60 t1 t2 (PI / 2))) in *.
    set (ey := snd (joint3 0 0 0 60 80 60 t1 t2 (PI / 2))) in *.
    clearbody ex ey.
    assert (H : sqrt (110 * 110)
                < sqrt ((ex - 100) * (ex - 100) + (ey - 50) * (ey - 50))).
    { apply sqrt_lt_1_alt.
      pose proof (Rle_0_sqr (ex - 100)) as Hx. unfold Rsqr in Hx.
      assert (Hsq : 110 * 110 < (ey - 50) * (ey - 50)) by nra.
      lra. }
    rewrite sqrt_square in H by lra. exact H.
Qed.

(** ** The base and its wheels *)

Lemma drawBase_paints (ctx : CanvasRenderingContext2D)
    (baseX baseY baseWidth baseHeight wheelRadius canvasHeight
     groundHeight : number) :
  painted (drawBase ctx baseX baseY baseWidth baseHeight wheelRadius
             canvasHeight groundHeight)
  = painted ctx
    ++ [ FilledRect baseX baseY baseWidth baseHeight "#000";
         StrokedRect baseX baseY baseWidth baseHeight (strokeStyle ctx);
         FilledPath
           [ Arc (add baseX wheelRadius)
                 (sub (sub canvasHeight groundHeight) wheelRadius)
                 wheelRadius (Num 0) (mul (Num 2) Math.PI);
             Arc (sub (add baseX baseWidth) wheelRadius)
                 (sub (sub canvasHeight groundHeight) wheelRadius)
                 wheelRadius (Num 0) (mul (Num 2) Math.PI) ]
           "#928f8e" ].
Proof.
  unfold drawBase. cbn -[add sub mul Math.PI].
  rewrite <- !app_assoc. reflexivity.
Qed.

(** C9, as stated, fails.  With the base at (0, 210), 100 wide, and wheels of
    radius 10 on a canvas 300 high with the ground 40 above its bottom, the
    wheel circles are not centred at x = 0 and x = 100. *)
Lemma wheels_not_on_base_edges :
  circles
    (painted (drawBase blankContext (Num 0) (Num 210) (Num 100) (Num 40)
                (Num 10) (Num 300) (Num 40)))
  <> [ (Num 0, Num (300 - 40 - 10), Num 10);
       (Num (0 + 100), Num (300 - 40 - 10), Num 10) ].
Proof.
  rewrite drawBase_paints. cbn.
  intros H. injection H as H0 _. lra.
Qed.

(** C9, amended.  For a finite base pose and finite dimensions, [drawBase]
    fills exactly two wheel circles of radius [wheelRadius]; their centres
    are one radius inside the base's left and right edges, at
    x = base.x + wheelRadius and x = base.x + width - wheelRadius, and at
    height canvasHeight - groundHeight - wheelRadius. *)
Theorem wheels_one_radius_inside_edges (ctx : CanvasRenderingContext2D)
    (bx by_ bw bh wr ch gh : R) :
  circles
    (painted (drawBase ctx (Num bx) (Num by_) (Num bw) (Num bh) (Num wr)
                (Num ch) (Num gh)))
  = circles (painted ctx)
    ++ [ (Num (bx + wr), Num (ch - gh - wr), Num wr);
         (Num (bx + bw - wr), Num (ch - gh - wr), Num wr) ].
Proof.
  rewrite drawBase_paints, circles_app.
  cbn [circles circles_of app add sub neg].
  reflexivity.
Qed.

(** ** The click handler *)

Lemma click_finite (canvas : HTMLCanvasElement) (event : MouseEvent)
    (prev : Point.t) (bw w l cx : R) :
  width canvas = Num w ->
  left (boundingClientRect canvas) = Num l ->
  clientX event = Num cx ->
  handleCanvasClick (Num bw) (Some canvas) event prev
  = Point.mk (Num (Rmin (Rmax (cx - l - bw / 2) 0) (w - bw)))
             (Point.y prev).
Proof.
  intros Hw Hl Hcx. unfold handleCanvasClick.
  rewrite Hw, Hl, Hcx. rewrite div_Num by lra. reflexivity.
Qed.

(** C6, as stated, fails.  On a canvas 50 wide a base 100 wide is moved by a
    click at x = 10 to x = -50, which is not in the (empty) interval from 0
    to 50 - 100. *)
Lemma narrow_canvas_breaks_clamp :
  Point.x (handleCanvasClick (Num 100) (Some (canvasOfWidth 50))
             {| clientX := Num 10 |} initialBasePosition)
  = Num (-50)
  /\ ~ (0 <= -50 <= 50 - 100).
Proof.
  split.
  - rewrite (click_finite (canvasOfWidth 50) _ _ 100 50 0 10)
      by reflexivity.
    cbn [Point.x]. f_equal.
    rewrite (Rmax_right (10 - 0 - 100 / 2) 0) by lra.
    rewrite Rmin_right by lra. lra.
  - lra.
Qed.

(** C6, amended.  When the canvas is at least as wide as the base, every
    click leaves the base position's x in the interval from 0 to
    canvas.width - baseWidth. *)
Theorem click_keeps_base_on_canvas (canvas : HTMLCanvasElement)
    (event : MouseEvent) (prev : Point.t) (bw w l cx : R) :
  width canvas = Num w ->
  left (boundingClientRect canvas) = Num l ->
  clientX event = Num cx ->
  bw <= w ->
  exists v : R,
    Point.x (handleCanvasClick (Num bw) (Some canvas) event prev) = Num v
    /\ 0 <= v <= w - bw.
Proof.
  intros Hw Hl Hcx Hfit.
  rewrite (click_finite canvas event prev bw w l cx Hw Hl Hcx).
  eexists. split; [reflexivity |].
  split.
  - apply Rmin_glb; [apply Rmax_r | lra].
  - apply Rmin_r.
Qed.

Lemma click_keeps_base_on_canvas_witness :
  100 <= 800 /\
  exists v : R,
    Point.x (handleCanvasClick (Num 100) (Some (canvasOfWidth 800))
               {| clientX := Num 790 |} initialBasePosition)
    = Num v
    /\ 0 <= v <= 800 - 100.
Proof.
  assert (Hfit : 100 <= 800) by lra.
  split; [exact Hfit |].
  exact (click_keeps_base_on_canvas (canvasOfWidth 800)
           {| clientX := Num 790 |} initialBasePosition 100 800 0 790
           eq_refl eq_refl eq_refl Hfit).
Defined.

Lemma clamp_is_min_max (lo hi v : R) :
  lo <= hi -> Rmin (Rmax v lo) hi = Spec.clamp lo hi v.
Proof.
  intros Hle. unfold Spec.clamp.
  destruct (Rlt_dec v lo) as [Hlow | Hlow].
  - rewrite Rmax_right by lra. apply Rmin_left. exact Hle.
  - rewrite Rmax_left by lra.
    destruct (Rlt_dec hi v) as [Hhigh | Hhigh].
    + apply Rmin_right. lra.
    + apply Rmin_left. lra.
Qed.

(** C7.  A click at local x-coordinate [cx - l] (client x minus the left edge
    of the canvas) leaves the base position's y unchanged and sets its x to
    min(max(localX - baseWidth/2, 0), canvas.width - baseWidth); when the
    canvas is at least as wide as the base this is localX - baseWidth/2
    clamped into the interval from 0 to canvas.width - baseWidth.  With
    canvas width 800 and base width 100, a click at local x = 10 gives
    x = 0 and a click at local x = 790 gives x = 700. *)
Theorem click_clamps_candidate (canvas : HTMLCanvasElement)
    (event : MouseEvent) (prev : Point.t) (bw w l cx : R) :
  width canvas = Num w ->
  left (boundingClientRect canvas) = Num l ->
  clientX event = Num cx ->
  let localX := cx - l in
  let next := handleCanvasClick (Num bw) (Some canvas) event prev in
  Point.y next = Point.y prev
  /\ Point.x next = Num (Rmin (Rmax (localX - bw / 2) 0) (w - bw))
  /\ (bw <= w ->
      Point.x next = Num (Spec.clamp 0 (w - bw) (localX - bw / 2)))
  /\ (w = 800 -> bw = 100 -> localX = 10 -> Point.x next = Num 0)
  /\ (w = 800 -> bw = 100 -> localX = 790 -> Point.x next = Num 700).
Proof.
  intros Hw Hl Hcx. cbv zeta.
  rewrite (click_finite canvas event prev bw w l cx Hw Hl Hcx).
  cbn [Point.x Point.y].
  split; [reflexivity | split; [reflexivity | split; [| split]]].
  - intros Hfit. rewrite clamp_is_min_max by lra. reflexivity.
  - intros -> -> Hx. rewrite Hx. f_equal.
    rewrite Rmax_right by lra. apply Rmin_left. lra.
  - intros -> -> Hx. rewrite Hx. f_equal.
    rewrite Rmax_left by lra. rewrite Rmin_right by lra. lra.
Qed.

Lemma click_clamps_candidate_witness :
  Point.y (handleCanvasClick (Num 100) (Some (canvasOfWidth 800))
             {| clientX := Num 10 |} (Point.mk (Num 350) (Num 210)))
  = Num 210
  /\ Point.x (handleCanvasClick (Num 100) (Some (canvasOfWidth 800))
                {| clientX := Num 10 |} (Point.mk (Num 350) (Num 210)))
     = Num 0.
Proof.
  pose proof (click_clamps_candidate (canvasOfWidth 800)
                {| clientX := Num 10 |} (Point.mk (Num 350) (Num 210))
                100 800 0 10 eq_refl eq_refl eq_refl) as H.
  cbv zeta in H.
  destruct H as [Hy [_ [_ [Hnear _]]]].
  split; [exact Hy |].
  apply Hnear; [reflexivity | reflexivity | lra].
Defined.

(** ** The one-time centring *)

Lemma strict_eq_210_0 : strict_eq (Num (300 - 40 - 40 - 10)) (Num 0) = false.
Proof.
  unfold strict_eq.
  destruct (Req_dec_T (300 - 40 - 40 - 10) 0) as [H | _];
    [lra | reflexivity].
Qed.

Lemma strict_eq_0_0 : strict_eq (Num 0) (Num 0) = true.
Proof.
  unfold strict_eq.
  destruct (Req_dec_T 0 0) as [_ | H]; [reflexivity | now elim H].
Qed.

(** C8.  Starting from the unset base position (0, 0), a run of the drawing
    effect on an attached canvas sets the base position to the centred
    resting pose, x = (canvas.width - baseWidth) / 2 and
    y = canvas.height - groundHeight - baseHeight - wheelRadius = 210; any
    further run, on any canvas of any width (or on none), leaves that
    position unchanged. *)
Theorem centring_happens_once (unsigned_long : number -> number)
    (canvas : HTMLCanvasElement) (canvasRef' : option HTMLCanvasElement) :
  context2d canvas <> None ->
  let viewport_width :=
    unsigned_long
      (mul (match parentClientWidth canvas with
            | Some w => w
            | None => Num 0
            end) (Num 0.8)) in
  let first :=
    snd (WMMCanvas.effect unsigned_long (Some canvas) initialBasePosition) in
  first
  = Point.mk (div (sub viewport_width WMMCanvas.baseWidth) (Num 2))
             (Num 210)
  /\ snd (WMMCanvas.effect unsigned_long canvasRef' first) = first.
Proof.
  intros Hctx. cbv zeta.
  assert (Hfirst :
    snd (WMMCanvas.effect unsigned_long (Some canvas) initialBasePosition)
    = Point.mk
        (div (sub (unsigned_long
                     (mul (match parentClientWidth canvas with
                           | Some w => w
                           | None => Num 0
                           end) (Num 0.8)))
                  WMMCanvas.baseWidth) (Num 2))
        (Num (300 - 40 - 40 - 10))).
  { unfold WMMCanvas.effect.
    destruct (context2d canvas) as [ctx |]; [| contradiction].
    cbn [snd initialBasePosition Point.x Point.y].
    rewrite strict_eq_0_0. reflexivity. }
  rewrite Hfirst. split.
  - f_equal. f_equal. lra.
  - unfold WMMCanvas.effect.
    destruct canvasRef' as [canvas' |]; [| reflexivity].
    destruct (context2d canvas') as [ctx' |]; [| reflexivity].
    cbn [snd Point.x Point.y].
    rewrite strict_eq_210_0, andb_false_r. reflexivity.
Qed.

Lemma centring_happens_once_witness :
  context2d (canvasOfWidth 800) <> None /\
  snd (WMMCanvas.effect (fun v => v) (Some (canvasOfWidth 300))
         (snd (WMMCanvas.effect (fun v => v) (Some (canvasOfWidth 800))
                initialBasePosition)))
  = snd (WMMCanvas.effect (fun v => v) (Some (canvasOfWidth 800))
           initialBasePosition).
Proof.
  assert (Hctx : context2d (canvasOfWidth 800) <> None)
    by (cbn; discriminate).
  split; [exact Hctx |].
  exact (proj2 (centring_happens_once (fun v => v) (canvasOfWidth 800)
                  (Some (canvasOfWidth 300)) Hctx)).
Defined.

(** * Further properties of the code *)

(** ** NaN is contagious *)

Lemma add_NaN_l (a : number) : add NaN a = NaN.
Proof. destruct a; reflexivity. Qed.

Lemma add_NaN_r (a : number) : add a NaN = NaN.
Proof. destruct a; reflexivity. Qed.

Lemma sub_NaN_l (a : number) : sub NaN a = NaN.
Proof. destruct a; reflexivity. Qed.

Lemma sub_NaN_r (a : number) : sub a NaN = NaN.
Proof. destruct a; reflexivity. Qed.

Lemma mul_NaN_l (a : number) : mul NaN a = NaN.
Proof. destruct a; reflexivity. Qed.

Lemma mul_NaN_r (a : number) : mul a NaN = NaN.
Proof. destruct a; reflexivity. Qed.

Lemma div_NaN_l (a : number) : div NaN a = NaN.
Proof. destruct a; reflexivity. Qed.

Lemma div_NaN_r (a : number) : div a NaN = NaN.
Proof. destruct a; reflexivity. Qed.

Lemma atan2_NaN_l (a : number) : Math.atan2 NaN a = NaN.
Proof. destruct a; reflexivity. Qed.

Lemma atan2_NaN_r (a : number) : Math.atan2 a NaN = NaN.
Proof. destruct a; reflexivity. Qed.

Lemma sqrt_NaN : Math.sqrt NaN = NaN.
Proof. reflexivity. Qed.

Lemma acos_NaN : Math.acos NaN = NaN.
Proof. reflexivity. Qed.

Create Rewrite HintDb js_nan.
#[local] Hint Rewrite add_NaN_l add_NaN_r sub_NaN_l sub_NaN_r mul_NaN_l
  mul_NaN_r div_NaN_l div_NaN_r atan2_NaN_l atan2_NaN_r sqrt_NaN acos_NaN
  : js_nan.

(** Once the wrist distance [a = r - l3] is NaN, so are the second and the
    third angle. *)
Lemma solver_NaN_wrist (x y : number) (armLengths : list number) :
  sub (Math.sqrt (add (mul x x) (mul y y))) (item armLengths 2) = NaN ->
  calculateInverseKinematics x y armLengths
  = Return [Math.atan2 y x; NaN; NaN].
Proof.
  intros Ha. unfold calculateInverseKinematics.
  rewrite Ha. autorewrite with js_nan. reflexivity.
Qed.

(** ** More on the solver *)

(** X1.  Given fewer than three link lengths, the solver still returns a
    triple for every target: the first angle is atan2(y, x) and the other
    two are NaN. *)
Theorem solver_short_array (x y : number) (armLengths : list number) :
  (List.length armLengths < 3)%nat ->
  calculateInverseKinematics x y armLengths
  = Return [Math.atan2 y x; NaN; NaN].
Proof.
  intros Hlen. apply solver_NaN_wrist.
  assert (Hl3 : item armLengths 2 = NaN).
  { unfold item. apply nth_overflow.
    apply PeanoNat.Nat.lt_succ_r. exact Hlen. }
  rewrite Hl3. apply sub_NaN_r.
Qed.

Lemma solver_short_array_witness :
  (List.length [Num 60; Num 80] < 3)%nat /\
  calculateInverseKinematics (Num 100) (Num 50) [Num 60; Num 80]
  = Return [Math.atan2 (Num 50) (Num 100); NaN; NaN].
Proof.
  assert (Hlen : (List.length [Num 60; Num 80] < 3)%nat)
    by (cbn; apply PeanoNat.Nat.lt_succ_diag_r).
  split; [exact Hlen |].
  exact (solver_short_array (Num 100) (Num 50) [Num 60; Num 80] Hlen).
Defined.

(** X2.  A target with a NaN coordinate makes all three returned angles
    NaN, whatever the link lengths. *)
Theorem solver_NaN_target (x y : number) (armLengths : list number) :
  x = NaN \/ y = NaN ->
  calculateInverseKinematics x y armLengths = Return [NaN; NaN; NaN].
Proof.
  intros Hnan.
  assert (Hwrist :
    sub (Math.sqrt (add (mul x x) (mul y y))) (item armLengths 2) = NaN)
    by (destruct Hnan as [-> | ->]; autorewrite with js_nan; reflexivity).
  rewrite (solver_NaN_wrist x y armLengths Hwrist).
  destruct Hnan as [-> | ->]; autorewrite with js_nan; reflexivity.
Qed.

Lemma solver_NaN_target_witness :
  (Num 100 = NaN \/ NaN = NaN) /\
  calculateInverseKinematics (Num 100) NaN [Num 60; Num 80; Num 60]
  = Return [NaN; NaN; NaN].
Proof.
  assert (Hnan : Num 100 = NaN \/ NaN = NaN) by (right; reflexivity).
  split; [exact Hnan |].
  exact (solver_NaN_target (Num 100) NaN [Num 60; Num 80; Num 60] Hnan).
Defined.

(** X3.  The second and the third angle depend on the target only through
    its distance from the shoulder: two finite targets at the same distance
    get the same second and third angle, for any finite link lengths. *)
Theorem solver_depends_on_distance (x y x' y' l1 l2 l3 : R) :
  x * x + y * y = x' * x' + y' * y' ->
  exists theta1 theta1' theta2 theta3 : number,
    calculateInverseKinematics (Num x) (Num y) [Num l1; Num l2; Num l3]
    = Return [theta1; theta2; theta3]
    /\ calculateInverseKinematics (Num x') (Num y')
         [Num l1; Num l2; Num l3]
       = Return [theta1'; theta2; theta3].
Proof.
  intros Hr.
  assert (Ha : Spec.a x y l3 = Spec.a x' y' l3)
    by (unfold Spec.a, Spec.r; rewrite Hr; reflexivity).
  assert (Hb : Spec.b x y l2 l3 = Spec.b x' y' l2 l3)
    by (unfold Spec.b; rewrite Ha; reflexivity).
  assert (Hc : Spec.c x y l1 l2 l3 = Spec.c x' y' l1 l2 l3)
    by (unfold Spec.c; rewrite Hb; reflexivity).
  do 4 eexists. split.
  - rewrite solver_unfolded. reflexivity.
  - rewrite solver_unfolded. unfold Spec.alpha.
    rewrite <- Ha, <- Hb, <- Hc. reflexivity.
Qed.

Lemma solver_depends_on_distance_witness :
  3 * 3 + 4 * 4 = 5 * 5 + 0 * 0 /\
  exists theta1 theta1' theta2 theta3 : number,
    calculateInverseKinematics (Num 3) (Num 4) [Num 1; Num 2; Num 3]
    = Return [theta1; theta2; theta3]
    /\ calculateInverseKinematics (Num 5) (Num 0) [Num 1; Num 2; Num 3]
       = Return [theta1'; theta2; theta3].
Proof.
  assert (Hr : 3 * 3 + 4 * 4 = 5 * 5 + 0 * 0) by lra.
  split; [exact Hr |].
  exact (solver_depends_on_distance 3 4 5 0 1 2 3 Hr).
Defined.

(** ** More on the forward chain *)

Lemma unit_circle (t : R) : cos t * cos t + sin t * sin t = 1.
Proof.
  pose proof (sin2_cos2 t) as H. unfold Rsqr in H. lra.
Qed.

(** The angle between two unit directions has cosine at most 1. *)
Lemma directions_dot_le_1 (s t : R) : cos s * cos t + sin s * sin t <= 1.
Proof.
  rewrite <- cos_minus. apply COS_bound.
Qed.

Lemma link_length (p : R * R) (l t : R) : dist p (Spec.link p l t) = Rabs l.
Proof.
  unfold dist, Spec.link. cbn [fst snd].
  replace ((fst p + l * cos t - fst p) * (fst p + l * cos t - fst p)
           + (snd p - l * sin t - snd p) * (snd p - l * sin t - snd p))
    with (Rsqr l * (cos t * cos t + sin t * sin t))
    by (unfold Rsqr; ring).
  rewrite unit_circle, Rmult_1_r. apply sqrt_Rsqr_abs.
Qed.

(** X5.  The three links that [drawArm] strokes are rigid: for finite
    inputs the stroked segments have lengths |l1|, |l2| and |l3|, whatever
    the angles and wherever the base is. *)
Theorem links_are_rigid (ctx : CanvasRenderingContext2D)
    (bx by_ bw l1 l2 l3 t1 t2 t3 : R) :
  exists p0 p1 p2 p3 : R * R, exists tip1 tip2 : number * number,
    segments
      (painted (drawArm ctx (Num bx) (Num by_) [Num l1; Num l2; Num l3]
                  [Num t1; Num t2; Num t3] (Num bw)))
    = segments (painted ctx)
      ++ [ (at_point p0, at_point p1);
           (at_point p1, at_point p2);
           (at_point p2, at_point p3);
           (tip1, at_point p3);
           (at_point p3, tip2) ]
    /\ dist p0 p1 = Rabs l1
    /\ dist p1 p2 = Rabs l2
    /\ dist p2 p3 = Rabs l3.
Proof.
  exists (anchor bx by_ bw), (joint1 bx by_ bw l1 t1),
    (joint2 bx by_ bw l1 l2 t1 t2), (joint3 bx by_ bw l1 l2 l3 t1 t2 t3).
  do 2 eexists. split; [apply drawArm_segments |].
  unfold joint3, joint2, joint1.
  split; [| split]; apply link_length.
Qed.

(** X6.  With non-negative link lengths the end-effector that [drawArm]
    reaches is never farther from the shoulder anchor
    (base.x + width/1.25, base.y) than l1 + l2 + l3. *)
Theorem reach_is_bounded (bx by_ bw l1 l2 l3 t1 t2 t3 : R) :
  0 <= l1 -> 0 <= l2 -> 0 <= l3 ->
  exists tip : R * R,
    endEffector (Num bx) (Num by_) [Num l1; Num l2; Num l3]
      [Num t1; Num t2; Num t3] (Num bw)
    = at_point tip
    /\ dist (bx + bw / 1.25, by_) tip <= l1 + l2 + l3.
Proof.
  intros Hl1 Hl2 Hl3.
  exists (joint3 bx by_ bw l1 l2 l3 t1 t2 t3).
  split; [apply endEffector_finite |].
  unfold dist, joint3, joint2, joint1, anchor, Spec.link. cbn [fst snd].
  set (c1 := cos t1). set (s1 := sin t1).
  set (c2 := cos t2). set (s2 := sin t2).
  set (c3 := cos t3). set (s3 := sin t3).
  pose proof (unit_circle t1) as U1. fold c1 s1 in U1.
  pose proof (unit_circle t2) as U2. fold c2 s2 in U2.
  pose proof (unit_circle t3) as U3. fold c3 s3 in U3.
  pose proof (directions_dot_le_1 t1 t2) as D12. fold c1 s1 c2 s2 in D12.
  pose proof (directions_dot_le_1 t1 t3) as D13. fold c1 s1 c3 s3 in D13.
  pose proof (directions_dot_le_1 t2 t3) as D23. fold c2 s2 c3 s3 in D23.
  clearbody c1 s1 c2 s2 c3 s3.
  assert (H12 : l1 * l2 * (c1 * c2 + s1 * s2) <= l1 * l2)
    by (assert (0 <= l1 * l2) by nra; nra).
  assert (H13 : l1 * l3 * (c1 * c3 + s1 * s3) <= l1 * l3)
    by (assert (0 <= l1 * l3) by nra; nra).
  assert (H23 : l2 * l3 * (c2 * c3 + s2 * s3) <= l2 * l3)
    by (assert (0 <= l2 * l3) by nra; nra).
  rewrite <- (sqrt_square (l1 + l2 + l3)) by lra.
  apply sqrt_le_1_alt.
  replace ((bx + bw / 1.25 + l1 * c1 + l2 * c2 + l3 * c3
            - (bx + bw / 1.25))
           * (bx + bw / 1.25 + l1 * c1 + l2 * c2 + l3 * c3
              - (bx + bw / 1.25))
           + (by_ - l1 * s1 - l2 * s2 - l3 * s3 - by_)
             * (by_ - l1 * s1 - l2 * s2 - l3 * s3 - by_))
    with (l1 * l1 * (c1 * c1 + s1 * s1) + l2 * l2 * (c2 * c2 + s2 * s2)
          + l3 * l3 * (c3 * c3 + s3 * s3)
          + 2 * (l1 * l2 * (c1 * c2 + s1 * s2))
          + 2 * (l1 * l3 * (c1 * c3 + s1 * s3))
          + 2 * (l2 * l3 * (c2 * c3 + s2 * s3)))
    by ring.
  rewrite U1, U2, U3. lra.
Qed.

Lemma reach_is_bounded_witness :
  0 <= 60 /\ 0 <= 80 /\
  exists tip : R * R,
    endEffector (Num 0) (Num 210) [Num 60; Num 80; Num 60]
      [Num 1; Num 0; Num (-1)] (Num 100)
    = at_point tip
    /\ dist (0 + 100 / 1.25, 210) tip <= 60 + 80 + 60.
Proof.
  assert (H60 : 0 <= 60) by lra.
  assert (H80 : 0 <= 80) by lra.
  split; [exact H60 | split; [exact H80 |]].
  exact (reach_is_bounded 0 210 100 60 80 60 1 0 (-1) H60 H80 H60).
Defined.

(** X7.  When the three joint angles are equal the chain is straight: the
    end-effector is at distance l1 + l2 + l3 along that direction from the
    shoulder anchor. *)
Theorem equal_angles_give_straight_chain (bx by_ bw l1 l2 l3 t : R) :
  endEffector (Num bx) (Num by_) [Num l1; Num l2; Num l3]
    [Num t; Num t; Num t] (Num bw)
  = at_point (Spec.link (bx + bw / 1.25, by_) (l1 + l2 + l3) t).
Proof.
  rewrite endEffector_finite.
  unfold at_point, joint3, joint2, joint1, anchor, Spec.link.
  cbn [fst snd]. f_equal; f_equal; ring.
Qed.

(** X8.  The arm rides rigidly on the base: moving a finite base position by
    (dx, dy) moves every segment [drawArm] strokes, links and gripper
    fingers alike, by exactly (dx, dy). *)
Theorem arm_moves_with_base (bx by_ bw l1 l2 l3 t1 t2 t3 dx dy : R) :
  segments
    (painted (drawArm blankContext (Num (bx + dx)) (Num (by_ + dy))
                [Num l1; Num l2; Num l3] [Num t1; Num t2; Num t3]
                (Num bw)))
  = map (shift dx dy)
      (segments
         (painted (drawArm blankContext (Num bx) (Num by_)
                     [Num l1; Num l2; Num l3] [Num t1; Num t2; Num t3]
                     (Num bw)))).
Proof.
  rewrite !drawArm_segments.
  cbn [painted blankContext segments app map].
  unfold shift, at_point, finger, joint3, joint2, joint1, anchor, Spec.link.
  cbn [fst snd add].
  repeat (f_equal; try ring).
Qed.

(** ** The gripper *)

Lemma cos_quarter_turn_back (t : R) : cos (t - PI / 2) = sin t.
Proof. rewrite cos_minus, cos_PI2, sin_PI2. ring. Qed.

Lemma sin_quarter_turn_back (t : R) : sin (t - PI / 2) = - cos t.
Proof. rewrite sin_minus, cos_PI2, sin_PI2. ring. Qed.

Lemma drawGripper_segments (ctx : CanvasRenderingContext2D)
    (cx cy t w : R) :
  segments (painted (drawGripper ctx (Num cx) (Num cy) (Num t) (Num w)))
  = segments (painted ctx)
    ++ [ (at_point (cx - w / 2 * cos (t - PI / 2),
                    cy - w / 2 * sin (t - PI / 2)),
          at_point (cx, cy));
         (at_point (cx, cy),
          at_point (cx + w / 2 * cos (t - PI / 2),
                    cy + w / 2 * sin (t - PI / 2))) ].
Proof.
  unfold drawGripper, Math.PI.
  cbn -[div].
  rewrite !div_Num by lra.
  cbn.
  rewrite !segments_app. cbn [segments segment_of].
  rewrite <- !app_assoc. reflexivity.
Qed.

(** X9.  For finite inputs [drawGripper] strokes two segments that meet at
    the end-effector; their outer ends are mirror images of each other in
    the end-effector and lie |gripperWidth| apart, so the gripper is drawn
    as one straight bar centred on the end-effector. *)
Theorem gripper_is_a_centred_bar (ctx : CanvasRenderingContext2D)
    (cx cy t w : R) :
  exists tipA tipB : R * R,
    segments (painted (drawGripper ctx (Num cx) (Num cy) (Num t) (Num w)))
    = segments (painted ctx)
      ++ [ (at_point tipA, at_point (cx, cy));
           (at_point (cx, cy), at_point tipB) ]
    /\ fst tipA + fst tipB = 2 * cx
    /\ snd tipA + snd tipB = 2 * cy
    /\ dist tipA tipB = Rabs w.
Proof.
  do 2 eexists. split; [apply drawGripper_segments |].
  cbn [fst snd]. split; [ring | split; [ring |]].
  unfold dist. cbn [fst snd].
  set (u := t - PI / 2).
  replace ((cx + w / 2 * cos u - (cx - w / 2 * cos u))
           * (cx + w / 2 * cos u - (cx - w / 2 * cos u))
           + (cy + w / 2 * sin u - (cy - w / 2 * sin u))
             * (cy + w / 2 * sin u - (cy - w / 2 * sin u)))
    with (Rsqr w * (cos u * cos u + sin u * sin u))
    by (unfold Rsqr; field).
  rewrite unit_circle, Rmult_1_r. apply sqrt_Rsqr_abs.
Qed.

(** X10.  In the arm that [drawArm] paints, the scalar product of link 3
    (from its start to the end-effector) with a gripper finger (from the
    end-effector to its tip) is 15 l3 sin(2 theta3): the gripper bar is at a
    right angle to the last link exactly when l3 sin(2 theta3) = 0. *)
Theorem gripper_angle_to_last_link (ctx : CanvasRenderingContext2D)
    (bx by_ bw l1 l2 l3 t1 t2 t3 : R) :
  exists p0 p1 p2 p3 tip1 tip2 : R * R,
    segments
      (painted (drawArm ctx (Num bx) (Num by_) [Num l1; Num l2; Num l3]
                  [Num t1; Num t2; Num t3] (Num bw)))
    = segments (painted ctx)
      ++ [ (at_point p0, at_point p1);
           (at_point p1, at_point p2);
           (at_point p2, at_point p3);
           (at_point tip1, at_point p3);
           (at_point p3, at_point tip2) ]
    /\ dot (vec p2 p3) (vec p3 tip2) = 15 * l3 * sin (2 * t3)
    /\ (dot (vec p2 p3) (vec p3 tip2) = 0 <-> l3 * sin (2 * t3) = 0).
Proof.
  do 6 eexists. split; [apply drawArm_segments |].
  assert (Hdot :
    dot (vec (joint2 bx by_ bw l1 l2 t1 t2)
             (joint3 bx by_ bw l1 l2 l3 t1 t2 t3))
        (vec (joint3 bx by_ bw l1 l2 l3 t1 t2 t3)
             (finger (joint3 bx by_ bw l1 l2 l3 t1 t2 t3) t3 1))
    = 15 * l3 * sin (2 * t3)).
  { unfold dot, vec, finger, joint3, Spec.link. cbn [fst snd].
    rewrite cos_quarter_turn_back, sin_quarter_turn_back, sin_2a.
    field. }
  split; [exact Hdot |].
  rewrite Hdot. split; intros H; lra.
Qed.

(** ** More on the base *)

(** X11.  For finite inputs the two wheels that [drawBase] fills stand on
    the ground line and span the base: the lowest point of each is at
    y = canvasHeight - groundHeight, the leftmost point of the first is at
    x = base.x and the rightmost point of the second at x = base.x + width.
    Their position does not depend on base.y. *)
Theorem wheels_touch_ground_and_edges (ctx : CanvasRenderingContext2D)
    (bx by_ bw bh wr ch gh : R) :
  exists x1 y1 x2 y2 : R,
    circles
      (painted (drawBase ctx (Num bx) (Num by_) (Num bw) (Num bh) (Num wr)
                  (Num ch) (Num gh)))
    = circles (painted ctx) ++ [(Num x1, Num y1, Num wr);
                                (Num x2, Num y2, Num wr)]
    /\ x1 - wr = bx
    /\ x2 + wr = bx + bw
    /\ y1 + wr = ch - gh
    /\ y2 + wr = ch - gh.
Proof.
  do 4 eexists. split.
  - rewrite drawBase_paints, circles_app.
    cbn [circles circles_of app add sub neg]. reflexivity.
  - repeat split; ring.
Qed.

(** ** More on the click handler *)

(** X12.  For finite inputs a click never puts the right edge of the base
    beyond the right edge of the canvas; and on a canvas narrower than the
    base every click, wherever it lands, pins the base's right edge to the
    canvas's right edge (so its x is negative). *)
Theorem click_respects_right_edge (canvas : HTMLCanvasElement)
    (event : MouseEvent) (prev : Point.t) (bw w l cx : R) :
  width canvas = Num w ->
  left (boundingClientRect canvas) = Num l ->
  clientX event = Num cx ->
  exists v : R,
    Point.x (handleCanvasClick (Num bw) (Some canvas) event prev) = Num v
    /\ v + bw <= w
    /\ (w < bw -> v = w - bw).
Proof.
  intros Hw Hl Hcx.
  rewrite (click_finite canvas event prev bw w l cx Hw Hl Hcx).
  eexists. split; [reflexivity |].
  pose proof (Rmin_r (Rmax (cx - l - bw / 2) 0) (w - bw)) as Hr.
  split; [lra |].
  intros Hnarrow. apply Rmin_right.
  pose proof (Rmax_r (cx - l - bw / 2) 0). lra.
Qed.

Lemma click_respects_right_edge_witness :
  exists v : R,
    Point.x (handleCanvasClick (Num 100) (Some (canvasOfWidth 50))
               {| clientX := Num 10 |} initialBasePosition)
    = Num v
    /\ v + 100 <= 50
    /\ (50 < 100 -> v = 50 - 100).
Proof.
  exact (click_respects_right_edge (canvasOfWidth 50)
           {| clientX := Num 10 |} initialBasePosition 100 50 0 10
           eq_refl eq_refl eq_refl).
Defined.

(** X13.  A click far enough from both edges centres the base on it: when
    the local x-coordinate of the click is between baseWidth/2 and
    canvas.width - baseWidth/2, the new x plus baseWidth/2 is the click's
    local x. *)
Theorem interior_click_centres_base (canvas : HTMLCanvasElement)
    (event : MouseEvent) (prev : Point.t) (bw w l cx : R) :
  width canvas = Num w ->
  left (boundingClientRect canvas) = Num l ->
  clientX event = Num cx ->
  bw / 2 <= cx - l <= w - bw / 2 ->
  exists v : R,
    Point.x (handleCanvasClick (Num bw) (Some canvas) event prev) = Num v
    /\ v + bw / 2 = cx - l.
Proof.
  intros Hw Hl Hcx [Hlo Hhi].
  rewrite (click_finite canvas event prev bw w l cx Hw Hl Hcx).
  eexists. split; [reflexivity |].
  rewrite Rmax_left by lra. rewrite Rmin_left by lra. ring.
Qed.

Lemma interior_click_centres_base_witness :
  100 / 2 <= 400 - 0 <= 800 - 100 / 2 /\
  exists v : R,
    Point.x (handleCanvasClick (Num 100) (Some (canvasOfWidth 800))
               {| clientX := Num 400 |} initialBasePosition)
    = Num v
    /\ v + 100 / 2 = 400 - 0.
Proof.
  assert (Hin : 100 / 2 <= 400 - 0 <= 800 - 100 / 2) by lra.
  split; [exact Hin |].
  exact (interior_click_centres_base (canvasOfWidth 800)
           {| clientX := Num 400 |} initialBasePosition 100 800 0 400
           eq_refl eq_refl eq_refl Hin).
Defined.

(** X14.  The handler is monotone: on the same canvas, a click further to
    the right never puts the base further to the left. *)
Theorem click_is_monotone (canvas : HTMLCanvasElement)
    (event event' : MouseEvent) (prev prev' : Point.t) (bw w l cx cx' : R) :
  width canvas = Num w ->
  left (boundingClientRect canvas) = Num l ->
  clientX event = Num cx ->
  clientX event' = Num cx' ->
  cx <= cx' ->
  exists v v' : R,
    Point.x (handleCanvasClick (Num bw) (Some canvas) event prev) = Num v
    /\ Point.x (handleCanvasClick (Num bw) (Some canvas) event' prev')
       = Num v'
    /\ v <= v'.
Proof.
  intros Hw Hl Hcx Hcx' Hle.
  rewrite (click_finite canvas event prev bw w l cx Hw Hl Hcx).
  rewrite (click_finite canvas event' prev' bw w l cx' Hw Hl Hcx').
  do 2 eexists. split; [reflexivity | split; [reflexivity |]].
  apply Rle_min_compat_r. apply Rle_max_compat_r. lra.
Qed.

Lemma click_is_monotone_witness :
  10 <= 790 /\
  exists v v' : R,
    Point.x (handleCanvasClick (Num 100) (Some (canvasOfWidth 800))
               {| clientX := Num 10 |} initialBasePosition)
    = Num v
    /\ Point.x (handleCanvasClick (Num 100) (Some (canvasOfWidth 800))
                  {| clientX := Num 790 |} initialBasePosition)
       = Num v'
    /\ v <= v'.
Proof.
  assert (Hle : 10 <= 790) by lra.
  split; [exact Hle |].
  exact (click_is_monotone (canvasOfWidth 800) {| clientX := Num 10 |}
           {| clientX := Num 790 |} initialBasePosition initialBasePosition
           100 800 0 10 790 eq_refl eq_refl eq_refl eq_refl Hle).
Defined.

(** ** The component over time *)

Lemma strict_eq_zero_true (a : number) :
  strict_eq a (Num 0) = true -> a = Num 0.
Proof.
  destruct a as [v | | |]; cbn; try discriminate.
  destruct (Req_dec_T v 0) as [-> | _]; [reflexivity | discriminate].
Qed.

Lemma effect_keeps_position (unsigned_long : number -> number)
    (canvasRef : option HTMLCanvasElement) (p : Point.t) :
  Point.x p <> Num 0 \/ Point.y p <> Num 0 ->
  snd (WMMCanvas.effect unsigned_long canvasRef p) = p.
Proof.
  intros Hset. unfold WMMCanvas.effect.
  destruct canvasRef as [canvas |]; [| reflexivity].
  destruct (context2d canvas) as [ctx |]; [| reflexivity].
  cbn [snd].
  destruct (strict_eq (Point.x p) (Num 0)) eqn:Hx;
    destruct (strict_eq (Point.y p) (Num 0)) eqn:Hy;
    cbn [andb]; try reflexivity.
  apply strict_eq_zero_true in Hx. apply strict_eq_zero_true in Hy.
  destruct Hset as [H | H]; contradiction.
Qed.

Lemma click_keeps_y (bw : number) (canvasRef : option HTMLCanvasElement)
    (event : MouseEvent) (p : Point.t) :
  Point.y (handleCanvasClick bw canvasRef event p) = Point.y p.
Proof. destruct canvasRef; reflexivity. Qed.

Lemma step_keeps_y (unsigned_long : number -> number) (p : Point.t)
    (a : action) :
  Point.y p <> Num 0 -> Point.y (step unsigned_long p a) = Point.y p.
Proof.
  intros Hy. destruct a as [canvasRef | canvasRef event]; cbn [step].
  - rewrite effect_keeps_position by (right; exact Hy). reflexivity.
  - apply click_keeps_y.
Qed.

Lemma run_keeps_y (unsigned_long : number -> number)
    (actions : list action) (p : Point.t) :
  Point.y p <> Num 0 ->
  Point.y (run unsigned_long p actions) = Point.y p.
Proof.
  unfold run. revert p.
  induction actions as [| a actions IH]; intros p Hy; cbn [fold_left].
  - reflexivity.
  - pose proof (step_keeps_y unsigned_long p a Hy) as Hstep.
    rewrite IH by (rewrite Hstep; exact Hy).
    exact Hstep.
Qed.

(** X15.  A run of the drawing effect changes the base position only when
    it is exactly (0, 0): with either coordinate different from 0 the
    position is kept, on any canvas.  So a centred base clicked to the left
    edge (x = 0, y = 210) is not centred again, and a position with y = 0
    but x different from 0 is never centred at all. *)
Theorem effect_changes_only_the_sentinel
    (unsigned_long : number -> number)
    (canvasRef : option HTMLCanvasElement) (p : Point.t) :
  Point.x p <> Num 0 \/ Point.y p <> Num 0 ->
  snd (WMMCanvas.effect unsigned_long canvasRef p) = p.
Proof.
  intros Hset. unfold WMMCanvas.effect.
  destruct canvasRef as [canvas |]; [| reflexivity].
  destruct (context2d canvas) as [ctx |]; [| reflexivity].
  cbn [snd].
  destruct (strict_eq (Point.x p) (Num 0)) eqn:Hx;
    destruct (strict_eq (Point.y p) (Num 0)) eqn:Hy;
    cbn [andb]; try reflexivity.
  apply strict_eq_zero_true in Hx. apply strict_eq_zero_true in Hy.
  destruct Hset as [H | H]; contradiction.
Qed.

Lemma effect_changes_only_the_sentinel_witness :
  (Point.x (Point.mk (Num 350) (Num 0)) <> Num 0
   \/ Point.y (Point.mk (Num 350) (Num 0)) <> Num 0)
  /\ snd (WMMCanvas.effect (fun v => v) (Some (canvasOfWidth 800))
            (Point.mk (Num 350) (Num 0)))
     = Point.mk (Num 350) (Num 0).
Proof.
  assert (Hset : Point.x (Point.mk (Num 350) (Num 0)) <> Num 0
                 \/ Point.y (Point.mk (Num 350) (Num 0)) <> Num 0).
  { left. cbn. intros H. injection H as H. lra. }
  split; [exact Hset |].
  exact (effect_changes_only_the_sentinel (fun v => v)
           (Some (canvasOfWidth 800)) (Point.mk (Num 350) (Num 0)) Hset).
Defined.

(** X16.  Once the base position has a y different from 0 (as it has after
    centring), no sequence of renders and clicks changes y, and the renders
    in the sequence do nothing to the position: the outcome is that of the
    clicks alone. *)
Theorem renders_are_neutral_once_centred
    (unsigned_long : number -> number) (actions : list action)
    (p : Point.t) :
  Point.y p <> Num 0 ->
  Point.y (run unsigned_long p actions) = Point.y p
  /\ run unsigned_long p actions
     = run unsigned_long p (filter is_click actions).
Proof.
  intros Hy. split; [apply run_keeps_y; exact Hy |].
  revert p Hy. induction actions as [| a actions IH]; intros p Hy.
  - reflexivity.
  - destruct a as [canvasRef | canvasRef event];
      cbn [filter is_click run fold_left step].
    + rewrite effect_keeps_position by (right; exact Hy).
      apply IH. exact Hy.
    + apply IH. rewrite click_keeps_y. exact Hy.
Qed.

Lemma renders_are_neutral_once_centred_witness :
  Point.y (Point.mk (Num 350) (Num 210)) <> Num 0 /\
  Point.y (run (fun v => v) (Point.mk (Num 350) (Num 210))
             [Click (Some (canvasOfWidth 800)) {| clientX := Num 10 |};
              Render (Some (canvasOfWidth 300))])
  = Num 210.
Proof.
  assert (Hy : Point.y (Point.mk (Num 350) (Num 210)) <> Num 0).
  { cbn. intros H. injection H as H. lra. }
  split; [exact Hy |].
  exact (proj1 (renders_are_neutral_once_centred (fun v => v)
                  [Click (Some (canvasOfWidth 800)) {| clientX := Num 10 |};
                   Render (Some (canvasOfWidth 300))]
                  (Point.mk (Num 350) (Num 210)) Hy)).
Defined.

(** X17.  Once the base position has a y different from 0, history does not
    matter: after any sequence of renders and clicks that ends with a click
    on an attached canvas, the position is what that last click alone would
    have produced from the starting position. *)
Theorem last_click_decides (unsigned_long : number -> number)
    (actions : list action) (canvas : HTMLCanvasElement)
    (event : MouseEvent) (p : Point.t) :
  Point.y p <> Num 0 ->
  run unsigned_long p (actions ++ [Click (Some canvas) event])
  = handleCanvasClick WMMCanvas.baseWidth (Some canvas) event p.
Proof.
  intros Hy.
  pose proof (run_keeps_y unsigned_long actions p Hy) as Hkept.
  unfold run in *. rewrite fold_left_app. cbn [fold_left step].
  unfold handleCanvasClick. rewrite Hkept. reflexivity.
Qed.

Lemma last_click_decides_witness :
  Point.y (Point.mk (Num 350) (Num 210)) <> Num 0 /\
  run (fun v => v) (Point.mk (Num 350) (Num 210))
    ([Click (Some (canvasOfWidth 800)) {| clientX := Num 10 |};
      Render (Some (canvasOfWidth 800))]
     ++ [Click (Some (canvasOfWidth 800)) {| clientX := Num 400 |}])
  = handleCanvasClick WMMCanvas.baseWidth (Some (canvasOfWidth 800))
      {| clientX := Num 400 |} (Point.mk (Num 350) (Num 210)).
Proof.
  assert (Hy : Point.y (Point.mk (Num 350) (Num 210)) <> Num 0).
  { cbn. intros H. injection H as H. lra. }
  split; [exact Hy |].
  exact (last_click_decides (fun v => v)
           [Click (Some (canvasOfWidth 800)) {| clientX := Num 10 |};
            Render (Some (canvasOfWidth 800))]
           (canvasOfWidth 800) {| clientX := Num 400 |}
           (Point.mk (Num 350) (Num 210)) Hy).
Defined.

Lemma step_y_is_0_or_210 (unsigned_long : number -> number) (p : Point.t)
    (a : action) :
  Point.y p = Num 0 \/ Point.y p = Num 210 ->
  Point.y (step unsigned_long p a) = Num 0
  \/ Point.y (step unsigned_long p a) = Num 210.
Proof.
  intros Hy. destruct a as [canvasRef | canvasRef event]; cbn [step].
  - unfold WMMCanvas.effect.
    destruct canvasRef as [canvas |]; [| exact Hy].
    destruct (context2d canvas) as [ctx |]; [| exact Hy].
    cbn [snd].
    destruct (strict_eq (Point.x p) (Num 0) && strict_eq (Point.y p) (Num 0));
      [| exact Hy].
    right. cbn. f_equal. lra.
  - rewrite click_keeps_y. exact Hy.
Qed.

(** X18.  Starting from the initial position (0, 0), whatever renders and
    clicks happen, on whatever canvases, the y of the base position is
    always either 0 (not centred yet) or the resting height 210. *)
Theorem y_is_sentinel_or_resting (unsigned_long : number -> number)
    (actions : list action) :
  Point.y (run unsigned_long initialBasePosition actions) = Num 0
  \/ Point.y (run unsigned_long initialBasePosition actions) = Num 210.
Proof.
  assert (Hgen : forall p,
    Point.y p = Num 0 \/ Point.y p = Num 210 ->
    Point.y (run unsigned_long p actions) = Num 0
    \/ Point.y (run unsigned_long p actions) = Num 210).
  { induction actions as [| a actions IH]; intros p Hy.
    - exact Hy.
    - cbn [run fold_left]. apply IH. apply step_y_is_0_or_210. exact Hy. }
  apply Hgen. left. reflexivity.
Qed.

(** ** What one run of the effect paints *)

(** Whatever it is given, [drawArm] adds five stroked two-point paths to
    what is already painted: three links and two fingers, each link
    starting where the previous one ends and both fingers touching the end
    of the third. *)
Lemma drawArm_paints (ctx : CanvasRenderingContext2D)
    (baseX baseY : number) (armLengths armThetas : list number)
    (baseWidth : number) :
  exists x0 y0 x1 y1 x2 y2 x3 y3 xa ya xb yb : number,
    painted (drawArm ctx baseX baseY armLengths armThetas baseWidth)
    = painted ctx
      ++ [ StrokedPath [MoveTo x0 y0; LineTo x1 y1] "#f00";
           StrokedPath [MoveTo x1 y1; LineTo x2 y2] "#0f0";
           StrokedPath [MoveTo x2 y2; LineTo x3 y3] "#f00";
           StrokedPath [MoveTo xa ya; LineTo x3 y3] "#e0f";
           StrokedPath [MoveTo x3 y3; LineTo xb yb] "#00f" ].
Proof.
  do 12 eexists.
  unfold drawArm, drawGripper.
  cbn -[add sub mul div neg item Math.cos Math.sin Math.PI].
  rewrite <- !app_assoc. cbn [app]. reflexivity.
Qed.

(** The context after a run of the effect on an attached canvas. *)
Lemma effect_painted (unsigned_long : number -> number)
    (canvas : HTMLCanvasElement) (ctx0 : CanvasRenderingContext2D)
    (p : Point.t) :
  context2d canvas = Some ctx0 ->
  exists (canvas' : HTMLCanvasElement) (ctx' : CanvasRenderingContext2D)
         (arm : list painting),
    fst (WMMCanvas.effect unsigned_long (Some canvas) p) = Some canvas'
    /\ context2d canvas' = Some ctx'
    /\ height canvas' = Num 300
    /\ List.length (segments arm) = 5%nat
    /\ circles arm = []
    /\ List.length arm = 5%nat
    /\ painted ctx'
       = [ FilledRect (Num 0) (Num 0) (width canvas') (Num 300) "#ebe4d6";
           StrokedPath
             [ MoveTo (Num 0) (sub (Num 300) WMMCanvas.groundHeight);
               LineTo (width canvas')
                      (sub (Num 300) WMMCanvas.groundHeight) ]
             "#000";
           FilledRect (Point.x p) (Point.y p) WMMCanvas.baseWidth
             WMMCanvas.baseHeight "#000";
           StrokedRect (Point.x p) (Point.y p) WMMCanvas.baseWidth
             WMMCanvas.baseHeight "#000";
           FilledPath
             [ Arc (add (Point.x p) WMMCanvas.wheelRadius)
                   (sub (sub (Num 300) WMMCanvas.groundHeight)
                        WMMCanvas.wheelRadius)
                   WMMCanvas.wheelRadius (Num 0) (mul (Num 2) Math.PI);
               Arc (sub (add (Point.x p) WMMCanvas.baseWidth)
                        WMMCanvas.wheelRadius)
                   (sub (sub (Num 300) WMMCanvas.groundHeight)
                        WMMCanvas.wheelRadius)
                   WMMCanvas.wheelRadius (Num 0) (mul (Num 2) Math.PI) ]
             "#928f8e" ]
         ++ arm.
Proof.
  intros Hctx. unfold WMMCanvas.effect. rewrite Hctx. cbn [fst].
  match goal with
  | |- context [drawArm ?c ?bx ?by_ ?ls ?ts ?bw] =>
      destruct (drawArm_paints c bx by_ ls ts bw)
        as (x0 & y0 & x1 & y1 & x2 & y2 & x3 & y3 & xa & ya & xb & yb
            & Harm)
  end.
  eexists. eexists.
  exists [ StrokedPath [MoveTo x0 y0; LineTo x1 y1] "#f00";
           StrokedPath [MoveTo x1 y1; LineTo x2 y2] "#0f0";
           StrokedPath [MoveTo x2 y2; LineTo x3 y3] "#f00";
           StrokedPath [MoveTo xa ya; LineTo x3 y3] "#e0f";
           StrokedPath [MoveTo x3 y3; LineTo xb yb] "#00f" ].
  split; [reflexivity |].
  cbn [context2d height width].
  split; [reflexivity | split; [reflexivity |]].
  split; [reflexivity | split; [reflexivity | split; [reflexivity |]]].
  rewrite Harm, drawBase_paints.
  cbn -[add sub mul div neg Math.PI WMMCanvas.groundHeight
        WMMCanvas.baseWidth WMMCanvas.baseHeight WMMCanvas.wheelRadius].
  reflexivity.
Qed.

(** X19.  Every run of the drawing effect on an attached canvas, whatever
    the base position (even a NaN one), leaves a canvas 300 high on which
    exactly ten things are painted, the first being the background
    rectangle (0, 0, width, 300): six of the ten are stroked straight
    segments (the ground line, three arm links, two gripper fingers) and
    one is a filled path of exactly two wheel circles. *)
Theorem effect_paints_whole_scene (unsigned_long : number -> number)
    (canvas : HTMLCanvasElement) (ctx0 : CanvasRenderingContext2D)
    (p : Point.t) :
  context2d canvas = Some ctx0 ->
  exists (canvas' : HTMLCanvasElement) (ctx' : CanvasRenderingContext2D),
    fst (WMMCanvas.effect unsigned_long (Some canvas) p) = Some canvas'
    /\ context2d canvas' = Some ctx'
    /\ height canvas' = Num 300
    /\ List.length (painted ctx') = 10%nat
    /\ nth_error (painted ctx') 0
       = Some (FilledRect (Num 0) (Num 0) (width canvas') (Num 300)
                 "#ebe4d6")
    /\ List.length (segments (painted ctx')) = 6%nat
    /\ List.length (circles (painted ctx')) = 2%nat.
Proof.
  intros Hctx.
  destruct (effect_painted unsigned_long canvas ctx0 p Hctx)
    as (canvas' & ctx' & arm & Hfst & Hc & Hh & Hseg & Hcirc & Hlen & Hp).
  exists canvas', ctx'.
  split; [exact Hfst | split; [exact Hc | split; [exact Hh |]]].
  rewrite Hp.
  split; [| split; [reflexivity | split]].
  - rewrite length_app, Hlen. reflexivity.
  - rewrite segments_app, length_app, Hseg. reflexivity.
  - rewrite circles_app, length_app, Hcirc. reflexivity.
Qed.

Lemma effect_paints_whole_scene_witness :
  context2d (canvasOfWidth 800) = Some blankContext /\
  exists (canvas' : HTMLCanvasElement) (ctx' : CanvasRenderingContext2D),
    fst (WMMCanvas.effect (fun v => v) (Some (canvasOfWidth 800))
           initialBasePosition)
    = Some canvas'
    /\ context2d canvas' = Some ctx'
    /\ height canvas' = Num 300
    /\ List.length (painted ctx') = 10%nat
    /\ nth_error (painted ctx') 0
       = Some (FilledRect (Num 0) (Num 0) (width canvas') (Num 300)
                 "#ebe4d6")
    /\ List.length (segments (painted ctx')) = 6%nat
    /\ List.length (circles (painted ctx')) = 2%nat.
Proof.
  split; [reflexivity |].
  exact (effect_paints_whole_scene (fun v => v) (canvasOfWidth 800)
           blankContext initialBasePosition eq_refl).
Defined.

(** X20.  The painters of a run see the base position the run started
    with: the base rectangle is filled at that position, 100 by 40, also in
    the run that centres the base.  From the initial position the base is
    therefore painted at (0, 0) while the position becomes the centred
    one. *)
Theorem effect_paints_position_at_start (unsigned_long : number -> number)
    (canvas : HTMLCanvasElement) (ctx0 : CanvasRenderingContext2D)
    (p : Point.t) :
  context2d canvas = Some ctx0 ->
  exists (canvas' : HTMLCanvasElement) (ctx' : CanvasRenderingContext2D),
    fst (WMMCanvas.effect unsigned_long (Some canvas) p) = Some canvas'
    /\ context2d canvas' = Some ctx'
    /\ nth_error (painted ctx') 2
       = Some (FilledRect (Point.x p) (Point.y p) (Num 100) (Num 40) "#000")
    /\ (p = initialBasePosition ->
        Point.y (snd (WMMCanvas.effect unsigned_long (Some canvas) p))
        = Num 210).
Proof.
  intros Hctx.
  destruct (effect_painted unsigned_long canvas ctx0 p Hctx)
    as (canvas' & ctx' & arm & Hfst & Hc & _ & _ & _ & _ & Hp).
  exists canvas', ctx'.
  split; [exact Hfst | split; [exact Hc | split]].
  - rewrite Hp. reflexivity.
  - intros ->. unfold WMMCanvas.effect. rewrite Hctx.
    cbn [snd initialBasePosition Point.x Point.y].
    rewrite strict_eq_0_0. cbn. f_equal. lra.
Qed.

Lemma effect_paints_position_at_start_witness :
  context2d (canvasOfWidth 800) = Some blankContext /\
  exists (canvas' : HTMLCanvasElement) (ctx' : CanvasRenderingContext2D),
    fst (WMMCanvas.effect (fun v => v) (Some (canvasOfWidth 800))
           initialBasePosition)
    = Some canvas'
    /\ context2d canvas' = Some ctx'
    /\ nth_error (painted ctx') 2
       = Some (FilledRect (Num 0) (Num 0) (Num 100) (Num 40) "#000")
    /\ (initialBasePosition = initialBasePosition ->
        Point.y (snd (WMMCanvas.effect (fun v => v)
                        (Some (canvasOfWidth 800)) initialBasePosition))
        = Num 210).
Proof.
  split; [reflexivity |].
  exact (effect_paints_position_at_start (fun v => v) (canvasOfWidth 800)
           blankContext initialBasePosition eq_refl).
Defined.
